(** * A shallow embedding of the Httptester Test Case (HTC) language:
      scanner (scanner.go), parser (parser.go), commands and expectation
      evaluator (the Go part of simple.htc). *)

From Stdlib Require Import String Ascii List Bool Arith Lia ZArith.
Import ListNotations.
Open Scope string_scope.

(** ** Characters and Go string helpers *)

(** The double quote character and the newline character. *)
Definition dq : ascii := "034"%char.
Definition nl : ascii := "010"%char.

(** A one-character string, Go's [string(ch)]. *)
Definition str1 (c : ascii) : string := String c EmptyString.

(** [eof] represents a marker rune for the end of the reader: [rune(0)]. *)
Definition eof : ascii := "000"%char.

(** A byte below 0x80: an ASCII character. On such bytes Go's UTF-8
    decoding ([bufio.Reader.ReadRune], [utf8.DecodeRune]) reads one byte
    per rune, which is how runes are modelled here. *)
Definition ascii7 (c : ascii) : bool := Nat.ltb (nat_of_ascii c) 128.

(** A lower-case hexadecimal digit, for [n < 16]. *)
Definition hex_digit (n : nat) : ascii :=
  ascii_of_nat (if Nat.ltb n 10 then 48 + n else 87 + n).

(** Go's [%q] verb on a string ([strconv.Quote]), rune by rune for ASCII
    runes: quote and backslash are escaped, printable characters are kept,
    the control characters with a short escape ([\a \b \f \n \r \t \v])
    use it and the other ones (below 0x20, and 0x7f) become [\xNN]. Bytes
    from 0x80 up are copied unchanged: for them Go decodes UTF-8 first,
    which is not modelled, so statements about [%q] keep to ASCII text. *)
Fixpoint go_escape (s : string) : string :=
  match s with
  | EmptyString => EmptyString
  | String c r =>
      let n := nat_of_ascii c in
      let e :=
        if Ascii.eqb c dq then String "\"%char (str1 dq)
        else if Ascii.eqb c "\"%char then "\\"
        else if Nat.eqb n 7 then "\a"
        else if Nat.eqb n 8 then "\b"
        else if Nat.eqb n 12 then "\f"
        else if Nat.eqb n 10 then "\n"
        else if Nat.eqb n 13 then "\r"
        else if Nat.eqb n 9 then "\t"
        else if Nat.eqb n 11 then "\v"
        else if Nat.ltb n 32 || Nat.eqb n 127 then
          String "\"%char (String "x" (String (hex_digit (n / 16)) (str1 (hex_digit (n mod 16)))))
        else str1 c in
      e ++ go_escape r
  end.

Definition goq (s : string) : string := str1 dq ++ go_escape s ++ str1 dq.

(** ** Tokens (scanner.go) *)

Inductive tokenType :=
(* Special tokens *)
| ILLEGAL | EOF | WS
(* Line break: referenced by the tx commands of simple.htc; its declaration
   is not part of scanner.go, and no branch of [scan] produces it. *)
| NEWLINE
(* Literals *)
| STRING | INTEGER
(* Misc characters *)
| DOT | HASH | OPEN_BRACKET | CLOSE_BRACKET | OPEN_CURLY | CLOSE_CURLY
(* Operators *)
| EQUAL | NOTEQUAL | TILDE
(* Keywords *)
| HANDLE | CLIENT | EXPECT | TX
| REQ | RESP | METHOD | STATUS | HEADERS | BODY
(* Arguments *)
| BODY_ARG | STATUS_ARG | HEADER_ARG | URL_ARG | METHOD_ARG.

Definition tokenType_eq_dec (a b : tokenType) : {a = b} + {a <> b}.
Proof. decide equality. Defined.

Definition tt_eqb (a b : tokenType) : bool :=
  if tokenType_eq_dec a b then true else false.

Infix "=t" := tt_eqb (at level 70).

Lemma tt_eqb_true a b : (a =t b) = true <-> a = b.
Proof. unfold tt_eqb; destruct (tokenType_eq_dec a b); split; congruence. Qed.

(** token represents a lexical token. eg: {typ:STATUS val:"200"} *)
Record token := { typ : tokenType; val : string }.

Definition newToken (t : tokenType) (v : string) : token := {| typ := t; val := v |}.

(** Pretty-print a token *)
Definition token_String (t : token) : string :=
  match typ t with
  | ILLEGAL => "ILLEGAL token " ++ goq (val t)
  | STRING => "STRING: " ++ val t
  | INTEGER => "INTEGER: " ++ val t
  | EOF => "EOF"
  | _ => val t
  end.

(** ** The scanner over a [bufio.Reader] *)

(** The reader state: the unread input and the rune an [UnreadRune] may put
    back ([bufio.Reader]'s [lastRuneSize]; a failed read or an unread
    clears it). Runes are modelled as bytes. *)
Record scanner := { rest : string; lastRune : option ascii }.

Definition newScanner (input : string) : scanner :=
  {| rest := input; lastRune := None |}.

(** read reads the next rune from the buffered reader.
    Returns the rune(0) if an error occurs (or io.EOF is returned).
    One byte is one rune here, as [ReadRune] reads ASCII text; multi-byte
    UTF-8 and invalid bytes (which [ReadRune] turns into U+FFFD) are not
    modelled, so statements that depend on the bytes read keep to ASCII. *)
Definition read (s : scanner) : ascii * scanner :=
  match rest s with
  | String c r => (c, {| rest := r; lastRune := Some c |})
  | EmptyString => (eof, {| rest := EmptyString; lastRune := None |})
  end.

(** unread places the previously read rune back on the reader; the error
    of [UnreadRune] is ignored, so without such a rune it does nothing. *)
Definition unread (s : scanner) : scanner :=
  match lastRune s with
  | Some c => {| rest := String c (rest s); lastRune := None |}
  | None => s
  end.

Definition in_range (lo hi c : ascii) : bool :=
  Nat.leb (nat_of_ascii lo) (nat_of_ascii c) && Nat.leb (nat_of_ascii c) (nat_of_ascii hi).

(** isWhitespace returns true if the rune is a space, tab, or newline. *)
Definition isWhitespace (ch : ascii) : bool :=
  Ascii.eqb ch " "%char || Ascii.eqb ch "009"%char || Ascii.eqb ch nl.

(** isLetter returns true if the rune is a letter. *)
Definition isLetter (ch : ascii) : bool := in_range "a" "z" ch || in_range "A" "Z" ch.

(** isDigit returns true if the rune is a digit. *)
Definition isDigit (ch : ascii) : bool := in_range "0" "9" ch.

Definition isIdentChar (ch : ascii) : bool :=
  isLetter ch || isDigit ch || Ascii.eqb ch "-" || Ascii.eqb ch "_".

(** The [for] loops of the scanner each read one rune per iteration and
    stop at the end of the input, so [S (length (rest s))] iterations are
    enough; the [0] branches below are never reached with that fuel. *)
Definition fuel_of (s : scanner) : nat := S (String.length (rest s)).

(** scanWhitespace consumes the current rune and all contiguous whitespace *)
Fixpoint scanWhitespace_loop (fuel : nat) (s : scanner) : scanner :=
  match fuel with
  | 0 => s
  | S f =>
      let (ch, s) := read s in
      if Ascii.eqb ch eof then s
      else if negb (isWhitespace ch) then unread s
      else scanWhitespace_loop f s
  end.

Definition scanWhitespace (s : scanner) : token * scanner :=
  (newToken WS " ", scanWhitespace_loop (fuel_of s) s).

(** scanQuotedString: read every subsequent character into the buffer, and
    stop as soon as a closing double quote is found. EOF will cause the
    loop to exit. *)
Fixpoint scanQuoted_loop (fuel : nat) (buf : string) (s : scanner) : string * scanner :=
  match fuel with
  | 0 => (buf, s)
  | S f =>
      let (ch, s) := read s in
      if Ascii.eqb ch eof then (buf, s)
      else if Ascii.eqb ch dq then (buf, s)
      else scanQuoted_loop f (buf ++ str1 ch) s
  end.

Definition scanQuotedString (s : scanner) : token * scanner :=
  let (buf, s) := scanQuoted_loop (fuel_of s) EmptyString s in
  (newToken STRING buf, s).

(** [strconv.Atoi] on the strings an identifier can hold: an optional sign
    and at least one decimal digit, within the range of a 64-bit int. *)
Fixpoint digits_value (acc : Z) (s : string) : option Z :=
  match s with
  | EmptyString => Some acc
  | String c r =>
      if isDigit c then digits_value (acc * 10 + Z.of_nat (nat_of_ascii c - 48))%Z r
      else None
  end.

Definition int64_ok (z : Z) : bool :=
  (- 2 ^ 63 <=? z)%Z && (z <? 2 ^ 63)%Z.

Definition Atoi (s : string) : option Z :=
  let signed :=
    match s with
    | String c r =>
        if Ascii.eqb c "-" then (true, r)
        else if Ascii.eqb c "+" then (false, r)
        else (false, s)
    | EmptyString => (false, s)
    end in
  let (neg, ds) := signed in
  match ds with
  | EmptyString => None
  | _ =>
      match digits_value 0 ds with
      | Some v => let z := if neg then (- v)%Z else v in
                  if int64_ok z then Some z else None
      | None => None
      end
  end.

(** scanIdent: the keyword table, then integers, otherwise illegal. *)
Definition ident_token (str : string) : token :=
  if String.eqb str "eq" then newToken EQUAL str
  else if String.eqb str "ne" then newToken NOTEQUAL str
  else if String.eqb str "handle" then newToken HANDLE str
  else if String.eqb str "client" then newToken CLIENT str
  else if String.eqb str "expect" then newToken EXPECT str
  else if String.eqb str "req" then newToken REQ str
  else if String.eqb str "resp" then newToken RESP str
  else if String.eqb str "method" then newToken METHOD str
  else if String.eqb str "headers" then newToken HEADERS str
  else if String.eqb str "body" then newToken BODY str
  else if String.eqb str "status" then newToken STATUS str
  else if String.eqb str "tx" then newToken TX str
  else if String.eqb str "-body" then newToken BODY_ARG str
  else if String.eqb str "-status" then newToken STATUS_ARG str
  else if String.eqb str "-header" then newToken HEADER_ARG str
  else if String.eqb str "-method" then newToken METHOD_ARG str
  else if String.eqb str "-url" then newToken URL_ARG str
  else match Atoi str with
       | Some _ => newToken INTEGER str
       | None => newToken ILLEGAL str
       end.

(** Read every subsequent ident character into the buffer.
    Non-ident characters and EOF will cause the loop to exit. *)
Fixpoint scanIdent_loop (fuel : nat) (buf : string) (s : scanner) : string * scanner :=
  match fuel with
  | 0 => (buf, s)
  | S f =>
      let (ch, s) := read s in
      if Ascii.eqb ch eof then (buf, s)
      else if negb (isIdentChar ch) then (buf, unread s)
      else scanIdent_loop f (buf ++ str1 ch) s
  end.

Definition scanIdent (s : scanner) : token * scanner :=
  let (c, s) := read s in
  let (str, s) := scanIdent_loop (fuel_of s) (str1 c) s in
  (ident_token str, s).

(** The comment loop of [scan]: read till newline ([true]) or EOF ([false]). *)
Fixpoint scanComment_loop (fuel : nat) (s : scanner) : bool * scanner :=
  match fuel with
  | 0 => (false, s)
  | S f =>
      let (ch, s) := read s in
      if Ascii.eqb ch nl then (true, s)
      else if Ascii.eqb ch eof then (false, s)
      else scanComment_loop f s
  end.

(** The final [switch ch] of [scan]. *)
Definition char_token (ch : ascii) : token :=
  if Ascii.eqb ch eof then newToken EOF ""
  else if Ascii.eqb ch "." then newToken DOT (str1 ch)
  else if Ascii.eqb ch "[" then newToken OPEN_BRACKET (str1 ch)
  else if Ascii.eqb ch "]" then newToken CLOSE_BRACKET (str1 ch)
  else if Ascii.eqb ch "{" then newToken OPEN_CURLY (str1 ch)
  else if Ascii.eqb ch "}" then newToken CLOSE_CURLY (str1 ch)
  else if Ascii.eqb ch "~" then newToken TILDE (str1 ch)
  else newToken ILLEGAL (str1 ch).

(** scan returns the next token *)
Definition scan (s0 : scanner) : token * scanner :=
  let (ch, s) := read s0 in
  if isWhitespace ch then scanWhitespace (unread s)
  else if isIdentChar ch then scanIdent (unread s)
  else if Ascii.eqb ch dq then scanQuotedString s
  else if Ascii.eqb ch "#" then
    let (found_nl, s) := scanComment_loop (fuel_of s) s in
    if found_nl then (newToken HASH "#", s)
    else (char_token eof, s)
  else (char_token ch, s).

(** ScanUseful returns the next non-whitespace, non-comment token *)
Fixpoint scanUseful_loop (fuel : nat) (s : scanner) : token * scanner :=
  let (t, s) := scan s in
  if (typ t =t WS) || (typ t =t HASH) then
    match fuel with
    | 0 => (t, s)
    | S f => scanUseful_loop f s
    end
  else (t, s).

Definition ScanUseful (s : scanner) : token * scanner :=
  scanUseful_loop (fuel_of s) s.

(** ** Outcomes of Go code and the parser monad *)

(** What a Go call ends in: a value, a returned [error], a runtime panic or
    [log.Panic], a [log.Fatal] (the process exits), or a loop that never
    exits (the loops below count their iterations; [Diverge] is what a
    loop gives when it runs out of them, which a loop only does when it
    reads EOF forever). *)
Inductive outcome (A : Type) : Type :=
| Ok (a : A)
| Err (msg : string)
| Panic (msg : string)
| Fatal (msg : string)
| Diverge.

Arguments Ok {A} a.
Arguments Err {A} msg.
Arguments Panic {A} msg.
Arguments Fatal {A} msg.
Arguments Diverge {A}.

Definition obind {A B} (m : outcome A) (k : A -> outcome B) : outcome B :=
  match m with
  | Ok a => k a
  | Err e => Err e
  | Panic e => Panic e
  | Fatal e => Fatal e
  | Diverge => Diverge
  end.

(** Parsing code threads the scanner through every call. *)
Definition P (A : Type) : Type := scanner -> outcome (A * scanner).

Definition ret {A} (a : A) : P A := fun s => Ok (a, s).
Definition fail {A} (msg : string) : P A := fun _ => Err msg.
Definition panic {A} (msg : string) : P A := fun _ => Panic msg.
Definition diverge {A} : P A := fun _ => Diverge.

Definition bind {A B} (m : P A) (k : A -> P B) : P B :=
  fun s => match m s with
           | Ok (a, s') => k a s'
           | Err e => Err e
           | Panic e => Panic e
           | Fatal e => Fatal e
           | Diverge => Diverge
           end.

Notation "x <- m ;; k" := (bind m (fun x => k))
  (at level 61, m at next level, right associativity).

Definition scanUsefulP : P token := fun s => Ok (ScanUseful s).
Definition unreadP : P unit := fun s => Ok (tt, unread s).

(** The iterations a parsing loop may take from the current input. *)
Definition with_fuel {A} (k : nat -> P A) : P A := fun s => k (fuel_of s) s.

(** ** The expect command *)

(** ExpectField represents the various attributes that the expect command
    can take. For example: req.method, resp.status, ... *)
Inductive ExpectField := EXPECT_METHOD | EXPECT_HEADERS | EXPECT_BODY | EXPECT_STATUS.

(** Expect is a command used to test a certain assumption. *)
Record Expect := {
  verbatim : string;
  field : ExpectField;
  headerName : string;
  operator : tokenType;
  expected : string
}.

(** The zero value [Expect{}]. *)
Definition Expect0 : Expect :=
  {| verbatim := ""; field := EXPECT_METHOD; headerName := "";
     operator := ILLEGAL; expected := "" |}.

Definition got (t : token) : string := goq (token_String t).

(** The header part of [req.headers[$hdr_name]]: the accumulated verbatim
    text and the header name. *)
Definition Expect_Parse_header (verb : string) : P (string * string) :=
  t <- scanUsefulP ;;
  let verb := verb ++ val t in
  if negb (typ t =t OPEN_BRACKET) then
    fail ("Parse error in 'expect' command: expecting 'req.headers[$hdr_name]', got " ++ got t)
  else
  t <- scanUsefulP ;;
  let verb := verb ++ val t in
  if negb (typ t =t STRING) then
    fail ("Parse error in 'expect' command: expecting 'req.headers[$hdr_name]', got " ++ got t)
  else
  let hdr := val t in
  t <- scanUsefulP ;;
  let verb := verb ++ val t in
  if negb (typ t =t CLOSE_BRACKET) then
    fail ("Parse error in 'expect' command: expecting 'req.headers[$hdr_name]', got " ++ got t)
  else ret (verb, hdr).

(** Parse an expect command. Support both requests (expect req[...]) and
    responses (expect resp[...]). *)
Definition Expect_Parse : P Expect :=
  t <- scanUsefulP ;;
  let verb := val t in
  if negb (typ t =t REQ) && negb (typ t =t RESP) then
    fail ("Parse error in 'expect' command: expecting {req,resp}, got " ++ got t)
  else
  t <- scanUsefulP ;;
  let verb := verb ++ val t in
  if negb (typ t =t DOT) then
    fail ("Parse error in 'expect' command: expecting something like 'req.method', got " ++ got t)
  else
  t <- scanUsefulP ;;
  let verb := verb ++ val t in
  fvh <- (match typ t with
          | METHOD => ret (EXPECT_METHOD, verb, "")
          | STATUS => ret (EXPECT_STATUS, verb, "")
          | BODY => ret (EXPECT_BODY, verb, "")
          | HEADERS =>
              vh <- Expect_Parse_header verb ;;
              ret (EXPECT_HEADERS, fst vh, snd vh)
          | _ => fail ("Parse error in 'expect' command: expecting 'req.{method,headers,body}', got " ++ got t)
          end) ;;
  let '(fld, verb, hdr) := fvh in
  (* Get the operator *)
  t <- scanUsefulP ;;
  let verb := verb ++ " " ++ val t in
  if negb (typ t =t EQUAL) && negb (typ t =t NOTEQUAL) && negb (typ t =t TILDE) then
    fail ("Parse error in 'expect' command: expecting operator to be '{eq,ne,~}', got " ++ got t)
  else
  let op := typ t in
  (* Get the value eg: "^(chrome|curl)" *)
  t <- scanUsefulP ;;
  let verb := verb ++ " " ++ goq (val t) in
  if negb (typ t =t STRING) && negb (typ t =t INTEGER) then
    fail ("Parse error in 'expect' command: expecting a string/integer, got " ++ got t)
  else
  ret {| verbatim := verb; field := fld; headerName := hdr;
         operator := op; expected := val t |}.

(** ** The tx commands *)

(** A Go [map[string]string] as an association list with one entry per key;
    assignment overwrites. *)
Definition gomap := list (string * string).

Definition map_set (k v : string) (m : gomap) : gomap :=
  (k, v) :: filter (fun kv => negb (String.eqb (fst kv) k)) m.

Fixpoint map_get (k : string) (m : gomap) : option string :=
  match m with
  | [] => None
  | (k', v) :: m' => if String.eqb k' k then Some v else map_get k m'
  end.

(** [strings.SplitN(s, ":", 2)] when it yields two parts: the text before
    the first colon and everything after it. *)
Fixpoint split_colon (s : string) : option (string * string) :=
  match s with
  | EmptyString => None
  | String c r =>
      if Ascii.eqb c ":" then Some (EmptyString, r)
      else match split_colon r with
           | Some (a, b) => Some (String c a, b)
           | None => None
           end
  end.

(** The loop condition shared by both tx commands. *)
Definition tx_terminator (t : token) : bool :=
  (typ t =t EOF) || (typ t =t CLOSE_CURLY) || (typ t =t NEWLINE).

(** The token types [scan] reads from a single rune of the input. *)
Definition pushback_token (k : tokenType) : bool :=
  match k with
  | DOT | OPEN_BRACKET | CLOSE_BRACKET | OPEN_CURLY | CLOSE_CURLY | TILDE | EOF => true
  | _ => false
  end.

Module TxResp.

(** TxResp is the command used to make origin servers return an HTTP
    response, e.g. tx -body "Hello world!" -header "X-HTC-Origin: true" *)
Record t := { statusCode : Z; headers : gomap; body : string }.

(** The zero value [TxResp{}]. *)
Definition zero : t := {| statusCode := 0; headers := []; body := "" |}.

Fixpoint loop (fuel : nat) (r : t) : P t :=
  match fuel with
  | 0 => diverge
  | S f =>
    tok <- scanUsefulP ;;
    if tx_terminator tok then
      _ <- unreadP ;; ret r
    else if typ tok =t BODY_ARG then
      tok <- scanUsefulP ;;
      if negb (typ tok =t STRING) then
        fail ("Parse error in 'tx' command: expecting a string, got " ++ got tok)
      else loop f {| statusCode := statusCode r; headers := headers r; body := val tok |}
    else if typ tok =t HEADER_ARG then
      tok <- scanUsefulP ;;
      if negb (typ tok =t STRING) then
        fail ("Parse error in 'tx' command: expecting a string, got " ++ got tok)
      else match split_colon (val tok) with
           | None => fail ("Parse error in 'tx' command: expecting a header, got " ++ got tok)
           | Some (k, v) =>
               loop f {| statusCode := statusCode r; headers := map_set k v (headers r);
                         body := body r |}
           end
    else if typ tok =t STATUS_ARG then
      tok <- scanUsefulP ;;
      if negb (typ tok =t INTEGER) then
        fail ("Parse error in 'tx' command: expecting an integer, got " ++ got tok)
      else
        let code := match Atoi (val tok) with Some z => z | None => 0%Z end in
        loop f {| statusCode := code; headers := headers r; body := body r |}
    else fail ("Parse error in 'tx' command: expecting -body, -header, or -status, got " ++ got tok)
  end.

(** Parse a tx command in the handle stanza, in other words a response. *)
Definition Parse : P t :=
  with_fuel (fun n => loop n {| statusCode := 200; headers := []; body := "" |}).

End TxResp.

Module TxReq.

(** TxReq is the command used to make clients send an HTTP request, e.g.
    tx -url "/hello/world" -header "X-HTC-Origin: true" -method "HEAD" *)
Record t := { uri : string; method : string; headers : gomap; body : string }.

(** The zero value [TxReq{}]. *)
Definition zero : t := {| uri := ""; method := ""; headers := []; body := "" |}.

Fixpoint loop (fuel : nat) (r : t) : P t :=
  match fuel with
  | 0 => diverge
  | S f =>
    tok <- scanUsefulP ;;
    (* Only "expect" is allowed after "tx" in the client stanza *)
    if tx_terminator tok then
      _ <- unreadP ;; ret r
    else if typ tok =t BODY_ARG then
      tok <- scanUsefulP ;;
      if negb (typ tok =t STRING) then
        fail ("Parse error in 'tx' command: expecting a string, got " ++ got tok)
      else loop f {| uri := uri r; method := method r; headers := headers r; body := val tok |}
    else if typ tok =t HEADER_ARG then
      tok <- scanUsefulP ;;
      if negb (typ tok =t STRING) then
        fail ("Parse error in 'tx' command: expecting a string, got " ++ got tok)
      else match split_colon (val tok) with
           | None => fail ("Parse error in 'tx' command: expecting a header, got " ++ got tok)
           | Some (k, v) =>
               loop f {| uri := uri r; method := method r;
                         headers := map_set k v (headers r); body := body r |}
           end
    else if typ tok =t METHOD_ARG then
      tok <- scanUsefulP ;;
      if negb (typ tok =t STRING) then
        fail ("Parse error in 'tx' command: expecting a string, got " ++ got tok)
      else loop f {| uri := uri r; method := val tok; headers := headers r; body := body r |}
    else if typ tok =t URL_ARG then
      tok <- scanUsefulP ;;
      if negb (typ tok =t STRING) then
        fail ("Parse error in 'tx' command: expecting a string, got " ++ got tok)
      else loop f {| uri := val tok; method := method r; headers := headers r; body := body r |}
    else fail ("Parse error in 'tx' command: expecting -url, -header, method, or -body, got " ++ got tok)
  end.

(** Parse a tx command in the client stanza, in other words a request. *)
Definition Parse : P t :=
  with_fuel (fun n => loop n {| uri := ""; method := "GET"; headers := []; body := "" |}).

End TxReq.

(** ** The stanza parser (parser.go) *)

Record HandleStanza := {
  URIPath : string;
  Expectations : list Expect;
  Response : TxResp.t
}.

Record ClientStanza := {
  Name : string;
  Request : TxReq.t;
  ClientExpectations : list Expect
}.

(** The block of a handle stanza, after its opening brace. *)
Fixpoint parseHandle_loop (fuel : nat) (h : HandleStanza) : P HandleStanza :=
  match fuel with
  | 0 => diverge
  | S f =>
    tok <- scanUsefulP ;;
    if typ tok =t CLOSE_CURLY then ret h else
    h <- (if typ tok =t EXPECT then
            exp <- Expect_Parse ;;
            ret {| URIPath := URIPath h; Expectations := app (Expectations h) [exp];
                   Response := Response h |}
          else ret h) ;;
    if typ tok =t TX then
      resp <- TxResp.Parse ;;
      let h := {| URIPath := URIPath h; Expectations := Expectations h; Response := resp |} in
      (* Sending the response is the last allowed action in a 'handle' block *)
      tok <- scanUsefulP ;;
      if negb (typ tok =t CLOSE_CURLY) then
        fail ("Parse error in 'handle' stanza: expecting '}' after 'tx' command, got " ++ got tok)
      else ret h
    else parseHandle_loop f h
  end.

Definition parseHandle : P HandleStanza :=
  (* URIPath: [token.typ != STRING || token.val[0] != '/'], where indexing
     an empty string panics *)
  tok <- scanUsefulP ;;
  _ <- (if negb (typ tok =t STRING) then
          fail ("Parse error in 'handle' stanza: expecting a URI path starting with '/', got " ++ got tok)
        else match val tok with
             | EmptyString => panic "runtime error: index out of range [0] with length 0"
             | String c _ =>
                 if negb (Ascii.eqb c "/") then
                   fail ("Parse error in 'handle' stanza: expecting a URI path starting with '/', got " ++ got tok)
                 else ret tt
             end) ;;
  let h := {| URIPath := val tok; Expectations := []; Response := TxResp.zero |} in
  (* Begin block *)
  tok <- scanUsefulP ;;
  if negb (typ tok =t OPEN_CURLY) then
    fail ("Parse error in 'handle' stanza: expecting '{', got " ++ got tok)
  else with_fuel (fun n => parseHandle_loop n h).

(** The block of a client stanza, after its opening brace. *)
Fixpoint parseClient_loop (fuel : nat) (c : ClientStanza) : P ClientStanza :=
  match fuel with
  | 0 => diverge
  | S f =>
    tok <- scanUsefulP ;;
    if typ tok =t CLOSE_CURLY then ret c else
    c <- (if typ tok =t TX then
            req <- TxReq.Parse ;;
            ret {| Name := Name c; Request := req; ClientExpectations := ClientExpectations c |}
          else ret c) ;;
    c <- (if typ tok =t EXPECT then
            exp <- Expect_Parse ;;
            ret {| Name := Name c; Request := Request c;
                   ClientExpectations := app (ClientExpectations c) [exp] |}
          else ret c) ;;
    parseClient_loop f c
  end.

Definition parseClient : P ClientStanza :=
  (* Client name *)
  tok <- scanUsefulP ;;
  if negb (typ tok =t STRING) then
    fail ("Parse error in 'client' stanza: expecting a name for the client, got " ++ got tok)
  else
  let c := {| Name := val tok; Request := TxReq.zero; ClientExpectations := [] |} in
  (* Begin block *)
  tok <- scanUsefulP ;;
  if negb (typ tok =t OPEN_CURLY) then
    fail ("Parse error in 'client' stanza: expecting '{', got " ++ got tok)
  else with_fuel (fun n => parseClient_loop n c).

Fixpoint Parse_loop (fuel : nat) (h : list HandleStanza) (c : list ClientStanza)
  : P (list HandleStanza * list ClientStanza) :=
  match fuel with
  | 0 => diverge
  | S f =>
    tok <- scanUsefulP ;;
    if typ tok =t EOF then ret (h, c)
    else if typ tok =t ILLEGAL then fail ("Parse error: " ++ token_String tok)
    else
    h <- (if typ tok =t HANDLE then hs <- parseHandle ;; ret (app h [hs]) else ret h) ;;
    c <- (if typ tok =t CLIENT then cs <- parseClient ;; ret (app c [cs]) else ret c) ;;
    Parse_loop f h c
  end.

(** Parse returns a list of handlers and clients upon successful parsing of
    the given HTC program. *)
Definition Parse (input : string) : outcome (list HandleStanza * list ClientStanza) :=
  obind (with_fuel (fun n => Parse_loop n [] []) (newScanner input))
    (fun r =>
       let '((h, c), _) := r in
       match h, c with
       | [], [] => Err "Parse error: at least one of 'handle' or 'client' stanza are needed"
       | _, _ => Ok (h, c)
       end).

(** ** The expectation evaluator *)

(** The request and response values the evaluator inspects: [Header] is
    [Header.Get] (the value of the named header, "" when absent) and a body
    is [None] for a nil body or the text the body reads to. *)
Record HttpRequest := {
  Method : string;
  Header : string -> string;
  Body : option string
}.

Record HttpResponse := {
  StatusCode : Z;
  RespHeader : string -> string;
  RespBody : option string
}.

(** [strconv.Itoa]: decimal digits of an int (an int64 has at most 19). *)
Fixpoint dec_digits (fuel : nat) (n : Z) (acc : string) : string :=
  match fuel with
  | 0 => acc
  | S f =>
      let acc := String (ascii_of_nat (48 + Z.to_nat (n mod 10))) acc in
      if (n / 10 =? 0)%Z then acc else dec_digits f (n / 10) acc
  end.

Definition Itoa (z : Z) : string :=
  if (z <? 0)%Z then "-" ++ dec_digits 20 (- z) EmptyString
  else dec_digits 20 z EmptyString.

(** Go's [regexp.Match(pattern, b)]: [inl] the compile error of the
    pattern, or [inr] whether [b] contains a match of it. *)
Definition regexp_lib := string -> string -> string + bool.

Section Evaluation.

Variable regexp_Match : regexp_lib.

(** expectThing returns true if what we expect is true given the value of
    'actual' ([log.Panic] on a bad pattern or an unknown operator; Go
    appends the operator's number to the latter message). *)
Definition expectThing (e : Expect) (actual : string) : outcome bool :=
  match operator e with
  | EQUAL => Ok (String.eqb (expected e) actual)
  | NOTEQUAL => Ok (negb (String.eqb (expected e) actual))
  | TILDE =>
      match regexp_Match (expected e) actual with
      | inl err => Panic ("regexp.Match error: " ++ err)
      | inr ret => Ok ret
      end
  | _ => Panic "Unknown operator"
  end.

(** ActualRequest returns the value in the given http.Request object
    corresponding to this Expect. *)
Definition ActualRequest (e : Expect) (req : HttpRequest) : outcome string :=
  match field e with
  | EXPECT_METHOD => Ok (Method req)
  | EXPECT_HEADERS => Ok (Header req (headerName e))
  | EXPECT_BODY => match Body req with None => Ok "" | Some b => Ok b end
  | EXPECT_STATUS => Fatal "Requests have no status"
  end.

(** Request returns true if the expectations regarding the given request
    are met, false otherwise. *)
Definition Expect_Request (e : Expect) (req : HttpRequest) : outcome bool :=
  obind (ActualRequest e req) (expectThing e).

(** ActualResponse returns the value in the given http.Response object
    corresponding to this Expect. *)
Definition ActualResponse (e : Expect) (resp : HttpResponse) : outcome string :=
  match field e with
  | EXPECT_STATUS => Ok (Itoa (StatusCode resp))
  | EXPECT_HEADERS => Ok (RespHeader resp (headerName e))
  | EXPECT_BODY => match RespBody resp with None => Ok "" | Some b => Ok b end
  | EXPECT_METHOD => Ok ""
  end.

(** Response returns true if the expectations regarding the given response
    are met, false otherwise. *)
Definition Expect_Response (e : Expect) (resp : HttpResponse) : outcome bool :=
  obind (ActualResponse e resp) (expectThing e).

End Evaluation.

(** ** Regular expressions: a model of Go's [regexp.Match] *)

(** The fragment of Go's RE2 syntax modelled here: literals, [.], [^] and
    [$] (start and end of text, as without the [m] flag), bracket classes
    with ranges and negation, the escapes [\d \D \s \S \w \W \n \t \r \f \v
    \a] and escaped punctuation, groups, alternation, and [* + ?] with an
    optional lazy [?] (which does not change whether a match exists).
    Patterns outside the fragment ([{n,m}], [(?...)], POSIX classes, other
    escapes, non-ASCII bytes) are rejected by [compile] here, like the
    patterns Go itself rejects; inputs are ASCII, one byte per rune. *)
Module Regexp.

Inductive regex :=
| REmpty
| RChar (c : ascii)
| RAnyNotNL
| RClass (neg : bool) (items : list (ascii * ascii))
| RBol
| REol
| RCat (r1 r2 : regex)
| RAlt (r1 r2 : regex)
| RStar (r : regex).

Definition class_mem (neg : bool) (items : list (ascii * ascii)) (c : ascii) : bool :=
  xorb neg (existsb (fun lh => in_range (fst lh) (snd lh) c) items).



(** The matcher: every end position of a match of [r] starting at [i]. *)
Fixpoint star_ends (step : nat -> list nat) (fuel i : nat) : list nat :=
  match fuel with
  | 0 => [i]
  | S f => i :: flat_map (fun j => if Nat.ltb i j then star_ends step f j else []) (step i)
  end.

Fixpoint ends (s : string) (r : regex) (i : nat) : list nat :=
  match r with
  | REmpty => [i]
  | RChar c =>
      match String.get i s with
      | Some c' => if Ascii.eqb c c' then [S i] else []
      | None => []
      end
  | RAnyNotNL =>
      match String.get i s with
      | Some c' => if Ascii.eqb c' nl then [] else [S i]
      | None => []
      end
  | RClass neg items =>
      match String.get i s with
      | Some c' => if class_mem neg items c' then [S i] else []
      | None => []
      end
  | RBol => if Nat.eqb i 0 then [i] else []
  | REol => if Nat.eqb i (String.length s) then [i] else []
  | RCat r1 r2 => flat_map (ends s r2) (ends s r1 i)
  | RAlt r1 r2 => app (ends s r1 i) (ends s r2 i)
  | RStar r1 => star_ends (ends s r1) (S (String.length s)) i
  end.

(** Whether some match starts at some position of the text. *)
Definition search (re : regex) (s : string) : bool :=
  existsb (fun i => match ends s re i with [] => false | _ => true end)
          (seq 0 (S (String.length s))).

(** *** Compiling a pattern *)

Definition is_repeat_op (c : ascii) : bool :=
  Ascii.eqb c "*" || Ascii.eqb c "+" || Ascii.eqb c "?".

Definition is_alnum (c : ascii) : bool := isLetter c || isDigit c.

Definition digit_class : list (ascii * ascii) := [("0", "9")]%char.
Definition space_class : list (ascii * ascii) :=
  [("009", "010"); ("012", "013"); (" ", " ")]%char.
Definition word_class : list (ascii * ascii) :=
  [("0", "9"); ("A", "Z"); ("a", "z"); ("_", "_")]%char.

(** The single-character escapes [\n \t \r \f \v \a]. *)
Definition control_escape (c : ascii) : option ascii :=
  if Ascii.eqb c "n" then Some nl
  else if Ascii.eqb c "t" then Some "009"%char
  else if Ascii.eqb c "r" then Some "013"%char
  else if Ascii.eqb c "f" then Some "012"%char
  else if Ascii.eqb c "v" then Some "011"%char
  else if Ascii.eqb c "a" then Some "007"%char
  else None.

(** A character after a backslash: escaped punctuation stands for itself. *)
Definition escaped_char (c : ascii) : option ascii :=
  match control_escape c with
  | Some e => Some e
  | None => if ascii7 c && negb (is_alnum c) then Some c else None
  end.

(** An escape outside a bracket class, after the backslash. *)
Definition p_escape (cs : list ascii) : option (regex * list ascii) :=
  match cs with
  | [] => None (* trailing backslash at end of expression *)
  | c :: t =>
      if Ascii.eqb c "d" then Some (RClass false digit_class, t)
      else if Ascii.eqb c "D" then Some (RClass true digit_class, t)
      else if Ascii.eqb c "s" then Some (RClass false space_class, t)
      else if Ascii.eqb c "S" then Some (RClass true space_class, t)
      else if Ascii.eqb c "w" then Some (RClass false word_class, t)
      else if Ascii.eqb c "W" then Some (RClass true word_class, t)
      else match escaped_char c with
           | Some e => Some (RChar e, t)
           | None => None
           end
  end.

(** One character of a bracket class. *)
Definition class_char (cs : list ascii) : option (ascii * list ascii) :=
  match cs with
  | [] => None
  | c :: t =>
      if Ascii.eqb c "\" then
        match t with
        | [] => None
        | e :: t' => match escaped_char e with Some x => Some (x, t') | None => None end
        end
      else if ascii7 c then Some (c, t) else None
  end.

(** The items of a bracket class up to its closing bracket; a [']'] first
    in the class is a literal. *)
Fixpoint class_items (fuel : nat) (first : bool) (acc : list (ascii * ascii))
    (cs : list ascii) : option (list (ascii * ascii) * list ascii) :=
  match fuel with
  | 0 => None
  | S f =>
    match cs with
    | [] => None (* missing closing ] *)
    | c :: t =>
      if Ascii.eqb c "]" && negb first then Some (rev acc, t)
      else if Ascii.eqb c "[" && match t with c' :: _ => Ascii.eqb c' ":" | [] => false end
      then None
      else
        match class_char cs with
        | None => None
        | Some (lo, t1) =>
            match t1 with
            | m :: (hc :: _) as t2 =>
                if Ascii.eqb m "-" && negb (Ascii.eqb hc "]") then
                  match class_char t2 with
                  | None => None
                  | Some (hi, t3) =>
                      if Nat.ltb (nat_of_ascii hi) (nat_of_ascii lo) then None
                      else class_items f false ((lo, hi) :: acc) t3
                  end
                else class_items f false ((lo, lo) :: acc) t1
            | _ => class_items f false ((lo, lo) :: acc) t1
            end
        end
    end
  end.

Definition p_class (cs : list ascii) : option (regex * list ascii) :=
  let '(neg, cs) := match cs with
                    | c :: t => if Ascii.eqb c "^" then (true, t) else (false, cs)
                    | [] => (false, cs)
                    end in
  match class_items (S (length cs)) true [] cs with
  | Some (items, t) => Some (RClass neg items, t)
  | None => None
  end.

(** A repetition operator after an atom, with its optional lazy [?]; a
    further repetition operator is an invalid nested repetition. *)
Definition p_repeat (a : regex) (cs : list ascii) : option (regex * list ascii) :=
  match cs with
  | op :: t =>
      if is_repeat_op op then
        let r := if Ascii.eqb op "*" then RStar a
                 else if Ascii.eqb op "+" then RCat a (RStar a)
                 else RAlt a REmpty in
        let t := match t with
                 | c :: t' => if Ascii.eqb c "?" then t' else t
                 | [] => t
                 end in
        match t with
        | c :: _ => if is_repeat_op c then None else Some (r, t)
        | [] => Some (r, t)
        end
      else Some (a, cs)
  | [] => Some (a, cs)
  end.

Fixpoint p_alt (fuel : nat) (cs : list ascii) : option (regex * list ascii) :=
  match fuel with
  | 0 => None
  | S f =>
    match p_concat f REmpty cs with
    | Some (r, c :: t) =>
        if Ascii.eqb c "|" then
          match p_alt f t with
          | Some (r2, t2) => Some (RAlt r r2, t2)
          | None => None
          end
        else Some (r, c :: t)
    | res => res
    end
  end
with p_concat (fuel : nat) (acc : regex) (cs : list ascii) : option (regex * list ascii) :=
  match fuel with
  | 0 => None
  | S f =>
    match cs with
    | [] => Some (acc, [])
    | c :: _ =>
        if Ascii.eqb c "|" || Ascii.eqb c ")" then Some (acc, cs)
        else match p_atom f cs with
             | None => None
             | Some (a, t) =>
                 match p_repeat a t with
                 | None => None
                 | Some (a', t') => p_concat f (RCat acc a') t'
                 end
             end
    end
  end
with p_atom (fuel : nat) (cs : list ascii) : option (regex * list ascii) :=
  match fuel with
  | 0 => None
  | S f =>
    match cs with
    | [] => None
    | c :: t =>
        if Ascii.eqb c "(" then
          match t with
          | c' :: _ => if Ascii.eqb c' "?" then None else
                         match p_alt f t with
                         | Some (r, c2 :: t2) => if Ascii.eqb c2 ")" then Some (r, t2) else None
                         | _ => None (* missing closing ) *)
                         end
          | [] => None
          end
        else if Ascii.eqb c "[" then p_class t
        else if Ascii.eqb c "\" then p_escape t
        else if Ascii.eqb c "." then Some (RAnyNotNL, t)
        else if Ascii.eqb c "^" then Some (RBol, t)
        else if Ascii.eqb c "$" then Some (REol, t)
        else if is_repeat_op c then None (* missing argument to repetition operator *)
        else if Ascii.eqb c "{" then None
        else if ascii7 c then Some (RChar c, t)
        else None
    end
  end.

(** [regexp.Compile] on the fragment: [None] when the pattern is rejected. *)
Definition compile (pat : string) : option regex :=
  let cs := list_ascii_of_string pat in
  match p_alt (3 * length cs + 3) cs with
  | Some (r, []) => Some r
  | _ => None
  end.

(** [regexp.Match] on the fragment; the error text is shortened to the
    prefix Go's [regexp/syntax] errors share and the pattern. *)
Definition Match (pat : string) (s : string) : string + bool :=
  match compile pat with
  | Some re => inr (search re s)
  | None => inl ("error parsing regexp: " ++ goq pat)
  end.

End Regexp.

(** ** Scripts *)

Definition quoted (s : string) : string := str1 dq ++ s ++ str1 dq.
Definition line (s : string) : string := s ++ str1 nl.

(** The example script of the README (and of the spec's section 6). *)
Definition readme_example : string :=
  line "# Test a basic get request" ++ line "" ++
  line ("handle " ++ quoted "/endpoint/1" ++ " {") ++
  line ("    expect req.method eq " ++ quoted "GET") ++
  line ("    expect req.headers[" ++ quoted "User-Agent" ++ "] ~ " ++ quoted "chrome") ++
  line ("    expect req.body eq " ++ quoted "") ++
  line ("    tx -body " ++ quoted "Hello world!" ++ " -header " ++ quoted "X-HTC-Origin: true"
        ++ " -status 200") ++
  line "}" ++ line "" ++
  line ("client " ++ quoted "nemo" ++ " {") ++
  line ("    tx -url " ++ quoted "/endpoint/1" ++ " -method " ++ quoted "GET" ++ " -header "
        ++ quoted "User-Agent: this might look like chrome to some") ++
  line "    expect resp.status ne 404" ++
  line ("    expect resp.headers[" ++ quoted "Server" ++ "] ~ "
        ++ quoted "^ATS/[0-9]\.[0-9]\.[0-9]$") ++
  line ("    expect resp.headers[" ++ quoted "Something-That-Should-Not-Be-Set" ++ "] eq "
        ++ quoted "") ++
  line "    expect resp.status eq 200" ++
  line "}".

(** The handle stanza of the README example alone. *)
Definition readme_handle : string :=
  line ("handle " ++ quoted "/endpoint/1" ++ " {") ++
  line ("    expect req.method eq " ++ quoted "GET") ++
  line ("    tx -body " ++ quoted "Hello world!" ++ " -status 200") ++
  line "}".

(** A client body with a tx line followed by an expect line. *)
Definition client_tx_then_expect : string :=
  line ("client " ++ quoted "c" ++ " {") ++
  line ("    tx -url " ++ quoted "/") ++
  line "    expect resp.status eq 200" ++
  line "}".

(** The arguments of a tx line, its line break and the next statement. *)
Definition tx_args_then_expect : string :=
  line (" -url " ++ quoted "/") ++ line "    expect resp.status eq 200" ++ "}".

Definition empty_handle (path : string) : string :=
  "handle " ++ quoted path ++ " { }".

(** The tx command of the flag-overwrite example, after its keyword. *)
Definition two_headers : string :=
  " -header " ++ quoted "A: 1" ++ " -header " ++ quoted "A: 2" ++ line "" ++ "}".

(** A script of comments and whitespace only. *)
Definition comments_only : string :=
  line "# nothing but a comment" ++ line "   " ++ "# and another".

(** Inputs, expectations and messages used in the statements below. *)

(** Texts the scanner reads in one piece: blanks, the body of a comment
    line, the characters of an identifier, and what may follow a run of
    blanks or an identifier without being read into it (the end of the
    input, or a byte of another kind that is not NUL). *)
Definition blanks (w : string) : bool := forallb isWhitespace (list_ascii_of_string w).

Definition comment_text (c : string) : bool :=
  forallb (fun ch => negb (Ascii.eqb ch nl) && negb (Ascii.eqb ch eof)) (list_ascii_of_string c).

Definition ident_chars (w : string) : bool := forallb isIdentChar (list_ascii_of_string w).

Definition blank_end (r : string) : bool :=
  match r with
  | EmptyString => true
  | String c _ => negb (isWhitespace c) && negb (Ascii.eqb c eof)
  end.

Definition ident_end (r : string) : bool :=
  match r with
  | EmptyString => true
  | String c _ => negb (isIdentChar c) && negb (Ascii.eqb c eof)
  end.

(** The bytes a reader can still deliver, the rune an [UnreadRune] may put
    back included, and the parsers that never make it grow. *)
Definition pending (s : scanner) : nat := String.length (rest (unread s)).

Definition keeps_pending {A} (m : P A) : Prop :=
  forall s x s', m s = Ok (x, s') -> pending s' <= pending s.

(** A script with a handler and a client, each with one expectation. *)
Definition two_stanzas : string :=
  "handle " ++ quoted "/x" ++ " { expect req.method eq " ++ quoted "GET" ++ " } client " ++
  quoted "c" ++ " { expect resp.status ne " ++ quoted "500" ++ " tx -url " ++ quoted "/x" ++ " }".

(** An ASCII byte that [scan] reads as a one-byte ILLEGAL token: no blank, no
    identifier character, no quote, no comment sign, and none of the
    bytes [char_token] knows (NUL included). *)
Definition stray_byte (c : ascii) : bool :=
  ascii7 c && negb (isWhitespace c) && negb (isIdentChar c) && negb (Ascii.eqb c dq) &&
  negb (Ascii.eqb c "#") && (typ (char_token c) =t ILLEGAL).


Definition no_stanza_error : string :=
  "Parse error: at least one of 'handle' or 'client' stanza are needed".

(** A text that a quoted string holds verbatim: ASCII (one byte per rune,
    as [read] reads it), with no double quote and no NUL byte (which
    [read] cannot tell from the end of input). *)
Fixpoint quotable (w : string) : bool :=
  match w with
  | EmptyString => true
  | String c w' =>
      negb (Ascii.eqb c dq) && negb (Ascii.eqb c eof) && ascii7 c && quotable w'
  end.

(** A double-quoted text followed by [r]. *)
Definition quoted_then (w r : string) : string := String dq (w ++ String dq r).

(** The text of an expectation [side.fld op value], spaced as in a
    script, followed by the text of its value and what comes after. *)
Definition expect_text (side fld op value : string) : string :=
  side ++ String "." (fld ++ String " " (op ++ String " " value)).

(** The same for a header field: [side.headers["h"] op value]. *)
Definition expect_header_text (side h op value : string) : string :=
  side ++ String "." ("headers" ++ String "[" (quoted_then h (String "]" (String " " (op ++ String " " value))))).


Fixpoint no_colon (n : string) : bool :=
  match n with
  | EmptyString => true
  | String c n' => negb (Ascii.eqb c ":") && no_colon n'
  end.

(** The tx command [-header "n:v1" -header "n:v2"] closed by a brace. *)
Definition header_twice (n v1 v2 : string) : string :=
  " -header " ++ quoted_then (n ++ ":" ++ v1)
    (" -header " ++ quoted_then (n ++ ":" ++ v2) "}").

(** A hand-built expectation whose operator is the [handle] keyword. *)
Definition handle_operator_expect : Expect :=
  {| verbatim := "req.method handle"; field := EXPECT_METHOD; headerName := "";
     operator := HANDLE; expected := "GET" |}.

Definition bad_pattern_expect : Expect :=
  {| verbatim := "req.method ~ " ++ goq "("; field := EXPECT_METHOD; headerName := "";
     operator := TILDE; expected := "(" |}.

Definition status_expect (v : string) : Expect :=
  {| verbatim := "req.status eq " ++ goq v; field := EXPECT_STATUS; headerName := "";
     operator := EQUAL; expected := v |}.

Definition method_match_expect (p : string) : Expect :=
  {| verbatim := "req.method ~ " ++ goq p; field := EXPECT_METHOD; headerName := "";
     operator := TILDE; expected := p |}.

Definition get_request : HttpRequest :=
  {| Method := "GET"; Header := fun _ => ""; Body := None |}.

Definition ok_response : HttpResponse :=
  {| StatusCode := 200%Z; RespHeader := fun _ => ""; RespBody := None |}.




(** * Properties *)

(** ** The scanner *)

Ltac split_ifs :=
  repeat match goal with
         | |- context [if ?b then _ else _] => destruct b
         | |- context [match ?m with Some _ => _ | None => _ end] => destruct m
         end.

Lemma ident_token_typ str :
  typ (ident_token str) <> NEWLINE /\ typ (ident_token str) <> EOF /\
  typ (ident_token str) <> CLOSE_CURLY /\ typ (ident_token str) <> WS /\
  typ (ident_token str) <> HASH.
Proof. unfold ident_token; split_ifs; simpl; repeat split; discriminate. Qed.

Lemma char_token_typ ch :
  typ (char_token ch) <> NEWLINE /\ typ (char_token ch) <> WS /\
  typ (char_token ch) <> HASH.
Proof. unfold char_token; split_ifs; simpl; repeat split; discriminate. Qed.

(** No branch of [scan] yields a line-break token. *)
Lemma scan_not_newline s : typ (fst (scan s)) <> NEWLINE.
Proof.
  unfold scan. destruct (read s) as [ch s1].
  destruct (isWhitespace ch); [discriminate|].
  destruct (isIdentChar ch).
  { unfold scanIdent. destruct (read (unread s1)) as [c s2].
    destruct (scanIdent_loop _ _ _) as [str s3]. apply ident_token_typ. }
  destruct (Ascii.eqb ch dq).
  { unfold scanQuotedString. destruct (scanQuoted_loop _ _ _). discriminate. }
  destruct (Ascii.eqb ch "#").
  { destruct (scanComment_loop _ _) as [[|] s2]; [discriminate|apply char_token_typ]. }
  apply char_token_typ.
Qed.

(** What [ScanUseful] returns is what one call of [scan] returned. *)
Lemma scanUseful_loop_scan fuel s : exists s0, scanUseful_loop fuel s = scan s0.
Proof.
  revert s. induction fuel as [|f IH]; intros s; simpl;
    destruct (scan s) as [t s'] eqn:E.
  - destruct ((typ t =t WS) || (typ t =t HASH)); exists s; rewrite E; reflexivity.
  - destruct ((typ t =t WS) || (typ t =t HASH)); [apply IH|].
    exists s; rewrite E; reflexivity.
Qed.

Lemma ScanUseful_not_newline s : typ (fst (ScanUseful s)) <> NEWLINE.
Proof.
  unfold ScanUseful. destruct (scanUseful_loop_scan (fuel_of s) s) as [s0 ->].
  apply scan_not_newline.
Qed.

(** ** Parsing scripts *)

(** Claim C1 (code_bug): the README example script, whose client body has
    its tx line followed by expect lines, does not parse: the tx flag loop
    of the client reads on past the line break and stops at the first
    [expect] with an error. Its handle stanza alone parses. *)
Theorem Parse_readme_example_fails :
  Parse readme_example =
    Err ("Parse error in 'tx' command: expecting -url, -header, method, or -body, got "
         ++ goq "expect")
  /\ (exists h, Parse readme_handle = Ok ([h], [])).
Proof. split; [vm_compute; reflexivity | eexists; vm_compute; reflexivity]. Qed.

(** Claim C2 (code_bug): no token the scanner yields is a line-break
    token, so the tx flag loop never stops at a line break: on a tx line
    followed by an expect line it reads the [expect] keyword as a flag and
    fails. *)
Theorem tx_loop_ignores_line_break :
  (forall s, typ (fst (ScanUseful s)) <> NEWLINE)
  /\ TxReq.Parse (newScanner tx_args_then_expect) =
       Err ("Parse error in 'tx' command: expecting -url, -header, method, or -body, got "
            ++ goq "expect")
  /\ Parse client_tx_then_expect =
       Err ("Parse error in 'tx' command: expecting -url, -header, method, or -body, got "
            ++ goq "expect").
Proof.
  split; [exact ScanUseful_not_newline|].
  split; vm_compute; reflexivity.
Qed.

(** Claim C3 (code_bug): a handle stanza closed without a tx command keeps
    the zero response, whose status code is 0 (the default 200 is set only
    by [TxResp.Parse]); with a bare tx command the status is 200. *)
Theorem empty_handle_response :
  Parse (empty_handle "/p") =
    Ok ([{| URIPath := "/p"; Expectations := [];
            Response := {| TxResp.statusCode := 0; TxResp.headers := [];
                           TxResp.body := "" |} |}], [])
  /\ Parse ("handle " ++ quoted "/p" ++ " { tx }") =
    Ok ([{| URIPath := "/p"; Expectations := [];
            Response := {| TxResp.statusCode := 200; TxResp.headers := [];
                           TxResp.body := "" |} |}], []).
Proof. split; vm_compute; reflexivity. Qed.

(** Claim C4 (code_bug): [handle ""] makes the URI-path check index the
    empty string, a runtime panic; a non-empty path without a leading
    slash gets the descriptive error. *)
Theorem handle_empty_path_panics :
  Parse (empty_handle "") = Panic "runtime error: index out of range [0] with length 0"
  /\ Parse (empty_handle "p") =
       Err ("Parse error in 'handle' stanza: expecting a URI path starting with '/', got "
            ++ goq "STRING: p").
Proof. split; vm_compute; reflexivity. Qed.

(** Claim C8: a script whose top-level loop ends with no handle stanza and
    no client stanza fails with the structural error, so every successful
    parse has a handler or a client; a script of comments only fails so. *)
Theorem Parse_needs_a_stanza :
  (forall input s,
     with_fuel (fun n => Parse_loop n [] []) (newScanner input) = Ok (([], []), s) ->
     Parse input = Err no_stanza_error)
  /\ (forall input h c, Parse input = Ok (h, c) -> h <> [] \/ c <> [])
  /\ Parse comments_only = Err no_stanza_error.
Proof.
  split; [|split].
  - intros input s H. unfold Parse. rewrite H. reflexivity.
  - intros input h c H. unfold Parse in H.
    destruct (with_fuel (fun n => Parse_loop n [] []) (newScanner input))
      as [[[h' c'] s']| | | |]; simpl in H; try discriminate.
    destruct h' as [|x h'], c' as [|y c']; inversion H; subst;
      first [left; discriminate | right; discriminate].
  - vm_compute. reflexivity.
Qed.

Lemma Parse_needs_a_stanza_witness :
  Parse comments_only = Err no_stanza_error
  /\ ([{| URIPath := "/p"; Expectations := []; Response := TxResp.zero |}] <> []
      \/ ([] : list ClientStanza) <> []).
Proof.
  split.
  - apply (proj1 Parse_needs_a_stanza comments_only {| rest := ""; lastRune := None |}).
    vm_compute. reflexivity.
  - apply (proj1 (proj2 Parse_needs_a_stanza) (empty_handle "/p")).
    vm_compute. reflexivity.
Defined.

(** ** Scanning quoted strings and flags *)

Lemma append_empty_r (s : string) : s ++ "" = s.
Proof. induction s as [|c s IH]; simpl; [reflexivity|now rewrite IH]. Qed.

Lemma append_assoc_str (a b c : string) : (a ++ b) ++ c = a ++ (b ++ c).
Proof. induction a as [|x a IH]; simpl; [reflexivity|now rewrite IH]. Qed.

Lemma length_append_str (a b : string) :
  String.length (a ++ b) = String.length a + String.length b.
Proof. induction a as [|x a IH]; simpl; [reflexivity|now rewrite IH]. Qed.

Lemma scanQuoted_loop_quotable w : forall fuel buf r l,
  quotable w = true -> String.length w < fuel ->
  scanQuoted_loop fuel buf {| rest := w ++ String dq r; lastRune := l |} =
    (buf ++ w, {| rest := r; lastRune := Some dq |}).
Proof.
  induction w as [|c w IH]; intros fuel buf r l Hq Hlen;
    (destruct fuel as [|f]; [simpl in Hlen; lia|]).
  - simpl. rewrite append_empty_r. reflexivity.
  - simpl in Hq. apply andb_prop in Hq as [Hq Hw]. apply andb_prop in Hq as [Hq _].
    apply andb_prop in Hq as [Hdq Heof].
    apply negb_true_iff in Hdq, Heof.
    simpl. rewrite Heof, Hdq. simpl in Hlen.
    rewrite IH by (assumption || lia).
    rewrite append_assoc_str. reflexivity.
Qed.

(** A space, then a quoted text: one [STRING] token. *)
Lemma ScanUseful_space_quoted w r l :
  quotable w = true ->
  ScanUseful {| rest := String " " (quoted_then w r); lastRune := l |} =
    (newToken STRING w, {| rest := r; lastRune := Some dq |}).
Proof.
  intros Hq. unfold ScanUseful, fuel_of, quoted_then. cbn [rest String.length].
  cbn -[scanQuoted_loop String.append].
  assert (isIdentChar dq = false) as -> by reflexivity.
  unfold scanQuotedString, fuel_of. cbn [rest].
  rewrite scanQuoted_loop_quotable; [reflexivity|assumption|].
  rewrite length_append_str. simpl. lia.
Qed.

(** A space, then the flag [-header], then [r]. *)
Lemma ScanUseful_header_flag r l :
  ScanUseful {| rest := " -header " ++ r; lastRune := l |} =
    (newToken HEADER_ARG "-header", {| rest := String " " r; lastRune := None |}).
Proof. reflexivity. Qed.

Lemma split_colon_name n v :
  no_colon n = true -> split_colon (n ++ ":" ++ v) = Some (n, v).
Proof.
  induction n as [|c n IH]; intros H; [reflexivity|].
  simpl in H. apply andb_prop in H as [Hc Hn]. apply negb_true_iff in Hc.
  simpl in IH |- *. rewrite Hc, IH by assumption. reflexivity.
Qed.

Lemma map_set_twice k v1 v2 : map_set k v2 (map_set k v1 []) = [(k, v2)].
Proof. unfold map_set. simpl. rewrite String.eqb_refl. reflexivity. Qed.

(** ** The tx flag loops *)

Lemma TxResp_loop_header f r s s1 s2 w k v :
  ScanUseful s = (newToken HEADER_ARG "-header", s1) ->
  ScanUseful s1 = (newToken STRING w, s2) ->
  split_colon w = Some (k, v) ->
  TxResp.loop (S f) r s =
    TxResp.loop f {| TxResp.statusCode := TxResp.statusCode r;
                     TxResp.headers := map_set k v (TxResp.headers r);
                     TxResp.body := TxResp.body r |} s2.
Proof.
  intros H1 H2 H3. cbn [TxResp.loop]. unfold bind, scanUsefulP.
  rewrite H1. cbn -[ScanUseful]. rewrite H2. cbn -[ScanUseful]. rewrite H3. reflexivity.
Qed.

Lemma TxResp_loop_stop f r s t s1 :
  ScanUseful s = (t, s1) -> tx_terminator t = true ->
  TxResp.loop (S f) r s = Ok (r, unread s1).
Proof.
  intros H1 H2. cbn [TxResp.loop]. unfold bind, scanUsefulP.
  rewrite H1. cbn -[ScanUseful]. rewrite H2. reflexivity.
Qed.

Lemma TxReq_loop_header f r s s1 s2 w k v :
  ScanUseful s = (newToken HEADER_ARG "-header", s1) ->
  ScanUseful s1 = (newToken STRING w, s2) ->
  split_colon w = Some (k, v) ->
  TxReq.loop (S f) r s =
    TxReq.loop f {| TxReq.uri := TxReq.uri r; TxReq.method := TxReq.method r;
                    TxReq.headers := map_set k v (TxReq.headers r);
                    TxReq.body := TxReq.body r |} s2.
Proof.
  intros H1 H2 H3. cbn [TxReq.loop]. unfold bind, scanUsefulP.
  rewrite H1. cbn -[ScanUseful]. rewrite H2. cbn -[ScanUseful]. rewrite H3. reflexivity.
Qed.

Lemma TxReq_loop_stop f r s t s1 :
  ScanUseful s = (t, s1) -> tx_terminator t = true ->
  TxReq.loop (S f) r s = Ok (r, unread s1).
Proof.
  intros H1 H2. cbn [TxReq.loop]. unfold bind, scanUsefulP.
  rewrite H1. cbn -[ScanUseful]. rewrite H2. reflexivity.
Qed.

Lemma header_twice_scan n v1 v2 :
  quotable (n ++ ":" ++ v1) = true -> quotable (n ++ ":" ++ v2) = true ->
  ScanUseful {| rest := header_twice n v1 v2; lastRune := None |} =
    (newToken HEADER_ARG "-header",
     {| rest := String " " (quoted_then (n ++ ":" ++ v1)
                 (" -header " ++ quoted_then (n ++ ":" ++ v2) "}")); lastRune := None |})
  /\ ScanUseful {| rest := String " " (quoted_then (n ++ ":" ++ v1)
                 (" -header " ++ quoted_then (n ++ ":" ++ v2) "}")); lastRune := None |} =
    (newToken STRING (n ++ ":" ++ v1),
     {| rest := " -header " ++ quoted_then (n ++ ":" ++ v2) "}"; lastRune := Some dq |})
  /\ ScanUseful {| rest := " -header " ++ quoted_then (n ++ ":" ++ v2) "}";
                   lastRune := Some dq |} =
    (newToken HEADER_ARG "-header",
     {| rest := String " " (quoted_then (n ++ ":" ++ v2) "}"); lastRune := None |})
  /\ ScanUseful {| rest := String " " (quoted_then (n ++ ":" ++ v2) "}"); lastRune := None |} =
    (newToken STRING (n ++ ":" ++ v2), {| rest := "}"; lastRune := Some dq |})
  /\ ScanUseful {| rest := "}"; lastRune := Some dq |} =
    (newToken CLOSE_CURLY "}", {| rest := ""; lastRune := Some "}"%char |}).
Proof.
  intros H1 H2.
  split; [apply ScanUseful_header_flag|].
  split; [apply ScanUseful_space_quoted; assumption|].
  split; [apply ScanUseful_header_flag|].
  split; [apply ScanUseful_space_quoted; assumption|].
  reflexivity.
Qed.

Lemma header_twice_fuel n v1 v2 :
  exists f, fuel_of {| rest := header_twice n v1 v2; lastRune := None |} = S (S (S f)).
Proof. eexists. unfold fuel_of, header_twice. cbn [rest String.length String.append]. reflexivity. Qed.

(** Claim C5 (counterexample): the flag-overwrite example maps [A] to the
    text after the colon, [" 2"] with its leading space, not to ["2"]. *)
Lemma tx_header_value_counterexample :
  ~ (exists r s, TxResp.Parse (newScanner two_headers) = Ok (r, s)
                 /\ map_get "A" (TxResp.headers r) = Some "2").
Proof.
  intros [r [s [H1 H2]]]. vm_compute in H1. inversion H1; subst.
  vm_compute in H2. discriminate.
Qed.

(** Claim C5 (amended): in both tx commands a [-header] argument (an
    ASCII text without a quote or NUL) is split at its first colon into
    the name before it and the value after it, kept verbatim; a later [-header] with the same name replaces the
    earlier value; the example maps [A] to [" 2"] only. *)
Theorem tx_header_last_wins :
  (forall n v1 v2,
     no_colon n = true ->
     quotable (n ++ ":" ++ v1) = true -> quotable (n ++ ":" ++ v2) = true ->
     TxResp.Parse (newScanner (header_twice n v1 v2)) =
       Ok ({| TxResp.statusCode := 200; TxResp.headers := [(n, v2)]; TxResp.body := "" |},
           {| rest := "}"; lastRune := None |})
     /\ TxReq.Parse (newScanner (header_twice n v1 v2)) =
       Ok ({| TxReq.uri := ""; TxReq.method := "GET"; TxReq.headers := [(n, v2)];
              TxReq.body := "" |},
           {| rest := "}"; lastRune := None |}))
  /\ (exists s, TxResp.Parse (newScanner two_headers) =
        Ok ({| TxResp.statusCode := 200; TxResp.headers := [("A", " 2")];
               TxResp.body := "" |}, s))
  /\ (exists s, TxReq.Parse (newScanner two_headers) =
        Ok ({| TxReq.uri := ""; TxReq.method := "GET"; TxReq.headers := [("A", " 2")];
               TxReq.body := "" |}, s)).
Proof.
  split; [|split; eexists; vm_compute; reflexivity].
  intros n v1 v2 Hn Hq1 Hq2.
  destruct (header_twice_scan n v1 v2 Hq1 Hq2) as (E1 & E2 & E3 & E4 & E5).
  destruct (header_twice_fuel n v1 v2) as [f Hf].
  unfold TxResp.Parse, TxReq.Parse, with_fuel, newScanner. rewrite Hf.
  split.
  - rewrite (TxResp_loop_header _ _ _ _ _ _ _ _ E1 E2 (split_colon_name _ _ Hn)).
    rewrite (TxResp_loop_header _ _ _ _ _ _ _ _ E3 E4 (split_colon_name _ _ Hn)).
    rewrite (TxResp_loop_stop _ _ _ _ _ E5 eq_refl).
    cbn [TxResp.headers]. rewrite map_set_twice. reflexivity.
  - rewrite (TxReq_loop_header _ _ _ _ _ _ _ _ E1 E2 (split_colon_name _ _ Hn)).
    rewrite (TxReq_loop_header _ _ _ _ _ _ _ _ E3 E4 (split_colon_name _ _ Hn)).
    rewrite (TxReq_loop_stop _ _ _ _ _ E5 eq_refl).
    cbn [TxReq.headers]. rewrite map_set_twice. reflexivity.
Qed.

Lemma tx_header_last_wins_witness :
  TxResp.Parse (newScanner (header_twice "A" " 1" " 2")) =
    Ok ({| TxResp.statusCode := 200; TxResp.headers := [("A", " 2")]; TxResp.body := "" |},
        {| rest := "}"; lastRune := None |})
  /\ TxReq.Parse (newScanner (header_twice "A" " 1" " 2")) =
    Ok ({| TxReq.uri := ""; TxReq.method := "GET"; TxReq.headers := [("A", " 2")];
           TxReq.body := "" |},
        {| rest := "}"; lastRune := None |}).
Proof. apply (proj1 tx_header_last_wins); reflexivity. Defined.

(** *** Pushing back a token *)

Lemma ident_token_not_pushback str : pushback_token (typ (ident_token str)) = false.
Proof. unfold ident_token; split_ifs; reflexivity. Qed.

(** A comment that runs into EOF leaves the reader where unreading and
    reading again yields EOF once more. *)
Lemma scanComment_loop_eof f s s2 :
  scanComment_loop f s = (false, s2) -> String.length (rest s) < f ->
  read (unread s2) = (eof, s2).
Proof.
  revert s. induction f as [|f IH]; intros s H Hf; [lia|].
  cbn [scanComment_loop] in H. unfold read in H at 1.
  destruct (rest s) as [|c r] eqn:Er.
  - cbn in H. inversion H; subst. reflexivity.
  - destruct (Ascii.eqb c nl); [discriminate|].
    destruct (Ascii.eqb c eof) eqn:Ec.
    + inversion H; subst. apply Ascii.eqb_eq in Ec. subst. reflexivity.
    + apply (IH _ H). cbn. cbn in Hf. lia.
Qed.

Lemma scan_pushback s t s' :
  scan s = (t, s') -> pushback_token (typ t) = true -> scan (unread s') = (t, s').
Proof.
  intros H Hp. unfold scan in H. destruct (rest s) as [|c r] eqn:Er.
  - unfold read in H. rewrite Er in H. cbn in H. inversion H; subst. reflexivity.
  - assert (Hr : read s = (c, {| rest := r; lastRune := Some c |}))
      by (unfold read; rewrite Er; reflexivity).
    rewrite Hr in H.
    destruct (isWhitespace c) eqn:E1.
    { unfold scanWhitespace in H. inversion H; subst. discriminate. }
    destruct (isIdentChar c) eqn:E2.
    { unfold scanIdent in H. destruct (read _) as [c1 s1].
      destruct (scanIdent_loop _ _ _) as [str s2]. inversion H; subst.
      rewrite ident_token_not_pushback in Hp. discriminate. }
    destruct (Ascii.eqb c dq) eqn:E3.
    { unfold scanQuotedString in H. destruct (scanQuoted_loop _ _ _).
      inversion H; subst. discriminate. }
    destruct (Ascii.eqb c "#") eqn:E4.
    { destruct (scanComment_loop _ _) as [[|] s2] eqn:Ec;
        inversion H; subst; [discriminate|].
      apply scanComment_loop_eof in Ec; [|cbn; unfold fuel_of; cbn; lia].
      unfold scan. rewrite Ec. reflexivity. }
    inversion H; subst. unfold scan. cbn [unread lastRune rest read].
    rewrite E1, E2, E3, E4. reflexivity.
Qed.

Lemma pushback_not_skipped t :
  pushback_token (typ t) = true -> (typ t =t WS) || (typ t =t HASH) = false.
Proof. destruct t as [k v]; destruct k; cbn; congruence. Qed.

Lemma ScanUseful_pushback s t s' :
  ScanUseful s = (t, s') -> pushback_token (typ t) = true ->
  ScanUseful (unread s') = (t, s').
Proof.
  intros H Hp. unfold ScanUseful in H.
  destruct (scanUseful_loop_scan (fuel_of s) s) as [s0 E]. rewrite E in H.
  apply scan_pushback in H; [|exact Hp].
  unfold ScanUseful, fuel_of. cbn [scanUseful_loop]. rewrite H.
  rewrite (pushback_not_skipped t Hp). reflexivity.
Qed.

Ltac tx_loop_cases H :=
  repeat (cbn beta iota in H;
          match type of H with
          | context [ScanUseful ?x] => destruct (ScanUseful x)
          | context [if ?b then _ else _] => destruct b
          | context [match split_colon ?v with _ => _ end] =>
              destruct (split_colon v) as [[? ?]|]
          end); try discriminate.

(** When a tx flag loop succeeds, it has read a terminator token and
    unread it. *)
Lemma TxResp_loop_end f r s r' s' :
  TxResp.loop f r s = Ok (r', s') ->
  exists s0 t s1, ScanUseful s0 = (t, s1) /\ tx_terminator t = true /\ s' = unread s1.
Proof.
  revert r s. induction f as [|f IH]; intros r s H; [discriminate|].
  cbn [TxResp.loop] in H. unfold bind, scanUsefulP in H.
  destruct (ScanUseful s) as [t s1] eqn:E.
  destruct (tx_terminator t) eqn:T.
  - unfold unreadP, ret in H. cbn beta iota in H. inversion H; subst.
    exists s, t, s1; auto.
  - tx_loop_cases H; eapply IH; exact H.
Qed.

Lemma TxReq_loop_end f r s r' s' :
  TxReq.loop f r s = Ok (r', s') ->
  exists s0 t s1, ScanUseful s0 = (t, s1) /\ tx_terminator t = true /\ s' = unread s1.
Proof.
  revert r s. induction f as [|f IH]; intros r s H; [discriminate|].
  cbn [TxReq.loop] in H. unfold bind, scanUsefulP in H.
  destruct (ScanUseful s) as [t s1] eqn:E.
  destruct (tx_terminator t) eqn:T.
  - unfold unreadP, ret in H. cbn beta iota in H. inversion H; subst.
    exists s, t, s1; auto.
  - tx_loop_cases H; eapply IH; exact H.
Qed.

Lemma tx_loop_end_pushback s0 t s1 :
  ScanUseful s0 = (t, s1) -> tx_terminator t = true ->
  (typ t = EOF \/ typ t = CLOSE_CURLY) /\ ScanUseful (unread s1) = (t, s1).
Proof.
  intros E T.
  assert (Hn : typ t <> NEWLINE)
    by (pose proof (ScanUseful_not_newline s0) as N; rewrite E in N; exact N).
  assert (Ht : typ t = EOF \/ typ t = CLOSE_CURLY)
    by (unfold tx_terminator in T; destruct t as [k v]; cbn in T, Hn |- *;
        destruct k; cbn in T; first [discriminate T | congruence | now left | now right]).
  split; [exact Ht|]. apply (ScanUseful_pushback s0); [exact E|].
  destruct Ht as [-> | ->]; reflexivity.
Qed.

(** Claim C9 (counterexample): [unread] puts back one rune, not one
    token. After the string token ["ab"] the rune put back is its closing
    quote, so the next scan reads a new string; after the keyword [tx] the
    scanner has already unread the space that ended it, the pushback does
    nothing and the next scan reads the following [}]. *)
Lemma unread_token_counterexample :
  ScanUseful (newScanner (quoted "ab" ++ " }")) =
    (newToken STRING "ab", {| rest := " }"; lastRune := Some dq |})
  /\ ScanUseful (unread {| rest := " }"; lastRune := Some dq |}) =
    (newToken STRING " }", {| rest := ""; lastRune := None |})
  /\ ScanUseful (newScanner "tx }") =
    (newToken TX "tx", {| rest := " }"; lastRune := None |})
  /\ ScanUseful (unread {| rest := " }"; lastRune := None |}) =
    (newToken CLOSE_CURLY "}", {| rest := ""; lastRune := Some "}"%char |}).
Proof. repeat split; vm_compute; reflexivity. Qed.

(** Claim C9 (amended): scanning, unreading and scanning again returns
    the same token exactly for the tokens read from a single rune ([.],
    brackets, curlies, [~] and EOF); the terminator a successful tx flag
    loop has read and unread is such a token ([}] or EOF, never a line
    break), so the next significant token read after the loop is that
    same terminator. *)
Theorem unread_single_rune_token :
  (forall s t s', ScanUseful s = (t, s') -> pushback_token (typ t) = true ->
                  ScanUseful (unread s') = (t, s'))
  /\ (forall s r s', TxResp.Parse s = Ok (r, s') ->
        exists s0 t s1, ScanUseful s0 = (t, s1) /\ s' = unread s1
                        /\ (typ t = EOF \/ typ t = CLOSE_CURLY) /\ ScanUseful s' = (t, s1))
  /\ (forall s r s', TxReq.Parse s = Ok (r, s') ->
        exists s0 t s1, ScanUseful s0 = (t, s1) /\ s' = unread s1
                        /\ (typ t = EOF \/ typ t = CLOSE_CURLY) /\ ScanUseful s' = (t, s1)).
Proof.
  split; [exact ScanUseful_pushback|split].
  - intros s r s' H. unfold TxResp.Parse, with_fuel in H.
    destruct (TxResp_loop_end _ _ _ _ _ H) as (s0 & t & s1 & E & T & ->).
    destruct (tx_loop_end_pushback _ _ _ E T) as [Ht Hs].
    exists s0, t, s1. auto.
  - intros s r s' H. unfold TxReq.Parse, with_fuel in H.
    destruct (TxReq_loop_end _ _ _ _ _ H) as (s0 & t & s1 & E & T & ->).
    destruct (tx_loop_end_pushback _ _ _ E T) as [Ht Hs].
    exists s0, t, s1. auto.
Qed.

Lemma unread_single_rune_token_witness :
  ScanUseful (unread {| rest := " x"; lastRune := Some "}"%char |}) =
    (newToken CLOSE_CURLY "}", {| rest := " x"; lastRune := Some "}"%char |})
  /\ (exists s0 t s1, ScanUseful s0 = (t, s1)
        /\ {| rest := "}"; lastRune := None |} = unread s1
        /\ (typ t = EOF \/ typ t = CLOSE_CURLY)
        /\ ScanUseful {| rest := "}"; lastRune := None |} = (t, s1))
  /\ (exists s0 t s1, ScanUseful s0 = (t, s1)
        /\ {| rest := "}"; lastRune := None |} = unread s1
        /\ (typ t = EOF \/ typ t = CLOSE_CURLY)
        /\ ScanUseful {| rest := "}"; lastRune := None |} = (t, s1)).
Proof.
  split; [|split].
  - apply (proj1 unread_single_rune_token (newScanner "} x")); vm_compute; reflexivity.
  - apply (proj1 (proj2 unread_single_rune_token) (newScanner (" -body " ++ quoted "x" ++ " }"))
             {| TxResp.statusCode := 200; TxResp.headers := []; TxResp.body := "x" |}).
    vm_compute; reflexivity.
  - apply (proj2 (proj2 unread_single_rune_token) (newScanner (" -url " ++ quoted "/" ++ " }"))
             {| TxReq.uri := "/"; TxReq.method := "GET"; TxReq.headers := []; TxReq.body := "" |}).
    vm_compute; reflexivity.
Defined.

(** *** The operators of parsed expectations *)

Ltac parse_cases H :=
  repeat (cbn [typ val fst snd] in H;
          match type of H with
          | context [ScanUseful ?x] => destruct (ScanUseful x) as [[? ?] ?]
          | context [if ?b then _ else _] => destruct b eqn:?
          | context [match ?k with METHOD => _ | _ => _ end] => destruct k
          end); try discriminate.

Lemma operator_check k :
  negb (k =t EQUAL) && negb (k =t NOTEQUAL) && negb (k =t TILDE) = false ->
  k = EQUAL \/ k = NOTEQUAL \/ k = TILDE.
Proof. destruct k; cbn; first [discriminate | auto]. Qed.

Lemma Expect_Parse_operator_valid s e s' :
  Expect_Parse s = Ok (e, s') ->
  operator e = EQUAL \/ operator e = NOTEQUAL \/ operator e = TILDE.
Proof.
  intros H. unfold Expect_Parse, Expect_Parse_header, bind, scanUsefulP, ret, fail in H.
  parse_cases H; inversion H; subst; cbn [operator]; apply operator_check; assumption.
Qed.

Lemma expectThing_panic lib e actual m :
  (operator e = EQUAL \/ operator e = NOTEQUAL \/ operator e = TILDE) ->
  expectThing lib e actual = Panic m ->
  operator e = TILDE /\ exists err, lib (expected e) actual = inl err
                                    /\ m = "regexp.Match error: " ++ err.
Proof.
  intros Hop H. unfold expectThing in H.
  destruct Hop as [Ho | [Ho | Ho]]; rewrite Ho in H; try discriminate.
  split; [exact Ho|].
  destruct (lib (expected e) actual) as [err|b]; [|discriminate].
  inversion H; subst. eauto.
Qed.

(** Claim C10: every expectation a successful [Expect_Parse] returns has
    operator [eq], [ne] or [~]; evaluating it panics only through a
    [regexp.Match] error, never with the unknown-operator panic, which a
    hand-built expectation with another operator does reach. *)
Theorem Expect_Parse_operator_known :
  (forall s e s', Expect_Parse s = Ok (e, s') ->
     operator e = EQUAL \/ operator e = NOTEQUAL \/ operator e = TILDE)
  /\ (forall lib s e s' actual m, Expect_Parse s = Ok (e, s') ->
        expectThing lib e actual = Panic m ->
        exists err, lib (expected e) actual = inl err /\ m = "regexp.Match error: " ++ err)
  /\ (forall lib s e s' actual, Expect_Parse s = Ok (e, s') ->
        expectThing lib e actual <> Panic "Unknown operator")
  /\ (forall lib actual,
        expectThing lib handle_operator_expect actual = Panic "Unknown operator").
Proof.
  split; [exact Expect_Parse_operator_valid|split; [|split]].
  - intros lib s e s' actual m H Hm.
    apply (expectThing_panic lib e actual m (Expect_Parse_operator_valid s e s' H)) in Hm.
    apply Hm.
  - intros lib s e s' actual H Hm.
    apply (expectThing_panic lib e actual _ (Expect_Parse_operator_valid s e s' H)) in Hm.
    destruct Hm as [_ [err [_ Heq]]]. discriminate Heq.
  - reflexivity.
Qed.

Lemma Expect_Parse_operator_known_witness :
  (operator bad_pattern_expect = EQUAL \/ operator bad_pattern_expect = NOTEQUAL
   \/ operator bad_pattern_expect = TILDE)
  /\ (exists err, Regexp.Match "(" "GET" = inl err
       /\ "regexp.Match error: " ++ ("error parsing regexp: " ++ goq "(")
          = "regexp.Match error: " ++ err)
  /\ expectThing Regexp.Match bad_pattern_expect "GET" <> Panic "Unknown operator".
Proof.
  assert (Hp : Expect_Parse (newScanner ("req.method ~ " ++ quoted "("))
               = Ok (bad_pattern_expect, {| rest := ""; lastRune := Some dq |}))
    by (vm_compute; reflexivity).
  split; [|split].
  - exact (proj1 Expect_Parse_operator_known _ _ _ Hp).
  - apply (proj1 (proj2 Expect_Parse_operator_known) Regexp.Match _ _ _ "GET" _ Hp).
    vm_compute; reflexivity.
  - exact (proj1 (proj2 (proj2 Expect_Parse_operator_known)) Regexp.Match _ _ _ "GET" Hp).
Defined.

(** *** The matcher against the semantics of regular expressions *)

Module RegexpFacts.
Import Regexp.








End RegexpFacts.

(** *** The verdicts of an expectation *)




(** ** Further properties of the scanner *)

Module ScannerFacts.

Lemma read_rest s l : read {| rest := rest s; lastRune := l |} = read s.
Proof. reflexivity. Qed.

(** [scan] reads through [read] only, which ignores the pushback slot. *)
Lemma scan_lastRune r l l' :
  scan {| rest := r; lastRune := l |} = scan {| rest := r; lastRune := l' |}.
Proof. reflexivity. Qed.

Lemma scanWhitespace_loop_le f s :
  String.length (rest (scanWhitespace_loop f s)) <= String.length (rest s).
Proof.
  revert s. induction f as [|f IH]; intros s; [reflexivity|].
  cbn [scanWhitespace_loop]. unfold read. destruct (rest s) as [|c r]; cbn; [lia|].
  destruct (Ascii.eqb c eof); cbn; [lia|].
  destruct (isWhitespace c); cbn; [|lia].
  specialize (IH {| rest := r; lastRune := Some c |}). cbn in IH. lia.
Qed.

Lemma scanComment_loop_le f s :
  String.length (rest (snd (scanComment_loop f s))) <= String.length (rest s).
Proof.
  revert s. induction f as [|f IH]; intros s; [reflexivity|].
  cbn [scanComment_loop]. unfold read. destruct (rest s) as [|c r]; cbn; [lia|].
  destruct (Ascii.eqb c nl); cbn; [lia|].
  destruct (Ascii.eqb c eof); cbn; [lia|].
  specialize (IH {| rest := r; lastRune := Some c |}). cbn in IH. lia.
Qed.

Lemma scanIdent_loop_le f buf s :
  String.length (rest (snd (scanIdent_loop f buf s))) <= String.length (rest s).
Proof.
  revert buf s. induction f as [|f IH]; intros buf s; [reflexivity|].
  cbn [scanIdent_loop]. unfold read. destruct (rest s) as [|c r]; cbn; [lia|].
  destruct (Ascii.eqb c eof); cbn; [lia|].
  destruct (isIdentChar c); cbn; [|lia].
  specialize (IH (buf ++ str1 c) {| rest := r; lastRune := Some c |}). cbn in IH. lia.
Qed.

Lemma scanQuoted_loop_le f buf s :
  String.length (rest (snd (scanQuoted_loop f buf s))) <= String.length (rest s).
Proof.
  revert buf s. induction f as [|f IH]; intros buf s; [reflexivity|].
  cbn [scanQuoted_loop]. unfold read. destruct (rest s) as [|c r]; cbn; [lia|].
  destruct (Ascii.eqb c eof); cbn; [lia|].
  destruct (Ascii.eqb c dq); cbn; [lia|].
  specialize (IH (buf ++ str1 c) {| rest := r; lastRune := Some c |}). cbn in IH. lia.
Qed.

(** [scan] at the end of the input returns EOF and stays there; anywhere
    else it consumes at least one byte. *)
Lemma scan_progress s t s' :
  scan s = (t, s') ->
  (rest s = "" /\ t = newToken EOF "" /\ s' = {| rest := ""; lastRune := None |})
  \/ String.length (rest s') < String.length (rest s).
Proof.
  intros H. unfold scan, read in H. destruct (rest s) as [|c r] eqn:Er.
  - left. cbn in H. inversion H. auto.
  - right. cbn [String.length].
    destruct (isWhitespace c) eqn:E1.
    { unfold scanWhitespace, unread, fuel_of in H. cbn in H.
      rewrite E1 in H. destruct (Ascii.eqb c eof) eqn:E0.
      - apply Ascii.eqb_eq in E0. subst c. discriminate E1.
      - cbn in H. inversion H; subst.
        pose proof (scanWhitespace_loop_le (S (String.length r))
                      {| rest := r; lastRune := Some c |}) as L. cbn in L. lia. }
    destruct (isIdentChar c) eqn:E2.
    { unfold scanIdent in H. cbn [unread lastRune rest read] in H.
      destruct (scanIdent_loop _ _ _) as [str s2] eqn:Ei. inversion H; subst.
      pose proof (scanIdent_loop_le (fuel_of {| rest := r; lastRune := Some c |}) (str1 c)
                    {| rest := r; lastRune := Some c |}) as L.
      rewrite Ei in L. cbn in L. lia. }
    destruct (Ascii.eqb c dq) eqn:E3.
    { unfold scanQuotedString in H.
      destruct (scanQuoted_loop _ _ _) as [buf s2] eqn:Eq. inversion H; subst.
      pose proof (scanQuoted_loop_le (fuel_of {| rest := r; lastRune := Some c |}) EmptyString
                    {| rest := r; lastRune := Some c |}) as L.
      rewrite Eq in L. cbn in L. lia. }
    destruct (Ascii.eqb c "#") eqn:E4.
    { destruct (scanComment_loop _ _) as [b s2] eqn:Ec.
      pose proof (scanComment_loop_le (fuel_of {| rest := r; lastRune := Some c |})
                    {| rest := r; lastRune := Some c |}) as L.
      rewrite Ec in L. cbn in L. destruct b; inversion H; subst; lia. }
    inversion H; subst. cbn. lia.
Qed.

Lemma skipped_progress s t s' :
  scan s = (t, s') -> (typ t =t WS) || (typ t =t HASH) = true ->
  String.length (rest s') < String.length (rest s).
Proof.
  intros H Hs. destruct (scan_progress s t s' H) as [(_ & -> & _) | L]; [discriminate|exact L].
Qed.

(** The loop of [ScanUseful] with more iterations than bytes left never
    runs out of them. *)
Lemma scanUseful_loop_useful f s :
  String.length (rest s) < f ->
  (typ (fst (scanUseful_loop f s)) =t WS) || (typ (fst (scanUseful_loop f s)) =t HASH) = false.
Proof.
  revert s. induction f as [|f IH]; intros s Hf; [lia|].
  cbn [scanUseful_loop]. destruct (scan s) as [t s'] eqn:E.
  destruct ((typ t =t WS) || (typ t =t HASH)) eqn:Hs; [|exact Hs].
  apply IH. pose proof (skipped_progress s t s' E Hs). lia.
Qed.

Lemma scanUseful_loop_fuel f f' s :
  String.length (rest s) < f -> String.length (rest s) < f' ->
  scanUseful_loop f s = scanUseful_loop f' s.
Proof.
  revert f' s. induction f as [|f IH]; intros f' s Hf Hf'; [lia|].
  destruct f' as [|f']; [lia|].
  cbn [scanUseful_loop]. destruct (scan s) as [t s'] eqn:E.
  destruct ((typ t =t WS) || (typ t =t HASH)) eqn:Hs; [|reflexivity].
  pose proof (skipped_progress s t s' E Hs). apply IH; lia.
Qed.

Lemma ScanUseful_lastRune r l l' :
  ScanUseful {| rest := r; lastRune := l |} = ScanUseful {| rest := r; lastRune := l' |}.
Proof. unfold ScanUseful, fuel_of. cbn [rest scanUseful_loop]. rewrite (scan_lastRune r l l'). reflexivity. Qed.

(** One skipped token, then the rest of the input. *)
Lemma ScanUseful_skip s t s' :
  scan s = (t, s') -> (typ t =t WS) || (typ t =t HASH) = true ->
  ScanUseful s = ScanUseful s'.
Proof.
  intros E Hs. unfold ScanUseful at 1, fuel_of. cbn [scanUseful_loop]. rewrite E, Hs.
  pose proof (skipped_progress s t s' E Hs).
  apply scanUseful_loop_fuel; unfold fuel_of; lia.
Qed.

Lemma scanWhitespace_loop_blanks w r l f :
  blanks w = true -> blank_end r = true -> String.length w < f ->
  scanWhitespace_loop f {| rest := w ++ r; lastRune := l |} = {| rest := r; lastRune := None |}.
Proof.
  revert l f. induction w as [|c w IH]; intros l f Hw Hr Hf; destruct f as [|f]; cbn in Hf; try lia.
  - cbn [String.append scanWhitespace_loop]. unfold read. cbn [rest].
    destruct r as [|c r]; [reflexivity|].
    cbn in Hr. apply andb_prop in Hr as [H1 H2]. apply negb_true_iff in H1, H2.
    rewrite H2, H1. reflexivity.
  - cbn in Hw. apply andb_prop in Hw as [Hc Hw].
    cbn [String.append scanWhitespace_loop]. unfold read. cbn [rest].
    assert (Ascii.eqb c eof = false)
      by (destruct (Ascii.eqb c eof) eqn:E; [apply Ascii.eqb_eq in E; subst; discriminate Hc|reflexivity]).
    rewrite H, Hc. cbn. apply IH; [exact Hw|exact Hr|lia].
Qed.

Lemma scan_blanks b w r l :
  blanks (String b w) = true -> blank_end r = true ->
  scan {| rest := String b w ++ r; lastRune := l |} =
    (newToken WS " ", {| rest := r; lastRune := None |}).
Proof.
  intros Hw Hr. pose proof Hw as Hb. cbn in Hb. apply andb_prop in Hb as [Hb _].
  unfold scan, read. cbn [rest String.append]. rewrite Hb.
  unfold scanWhitespace. cbn [unread lastRune rest].
  rewrite (scanWhitespace_loop_blanks (String b w) r None); [reflexivity|exact Hw|exact Hr|].
  unfold fuel_of. cbn [rest String.length]. rewrite length_append_str. lia.
Qed.

Lemma scanComment_loop_line c r l f :
  comment_text c = true -> String.length c < f ->
  scanComment_loop f {| rest := c ++ String nl r; lastRune := l |} =
    (true, {| rest := r; lastRune := Some nl |}).
Proof.
  revert l f. induction c as [|ch c IH]; intros l f Hc Hf; destruct f as [|f]; cbn in Hf; try lia.
  - reflexivity.
  - cbn in Hc. apply andb_prop in Hc as [H1 Hc]. apply andb_prop in H1 as [H1 H2].
    apply negb_true_iff in H1, H2.
    cbn [String.append scanComment_loop]. unfold read. cbn [rest].
    rewrite H1, H2. apply IH; [exact Hc|lia].
Qed.

Lemma scan_comment c r l :
  comment_text c = true ->
  scan {| rest := String "#" (c ++ String nl r); lastRune := l |} =
    (newToken HASH "#", {| rest := r; lastRune := Some nl |}).
Proof.
  intros Hc. unfold scan, read. cbn [rest].
  change (isWhitespace "#") with false. change (isIdentChar "#") with false.
  change (Ascii.eqb "#" dq) with false. change (Ascii.eqb "#" "#") with true.
  cbv iota beta.
  rewrite (scanComment_loop_line c r (Some "#"%char)); [reflexivity|exact Hc|].
  unfold fuel_of. cbn [rest]. rewrite length_append_str. cbn. lia.
Qed.

Lemma ident_not_eof c : isIdentChar c = true -> Ascii.eqb c eof = false.
Proof. intros H. destruct (Ascii.eqb c eof) eqn:E; [apply Ascii.eqb_eq in E; subst; discriminate H|reflexivity]. Qed.

Lemma ident_not_blank c : isIdentChar c = true -> isWhitespace c = false.
Proof.
  destruct c as [[] [] [] [] [] [] [] []]; cbn; first [reflexivity | discriminate].
Qed.

Lemma scanIdent_loop_chars w r l f buf :
  ident_chars w = true -> ident_end r = true -> String.length w < f ->
  scanIdent_loop f buf {| rest := w ++ r; lastRune := l |} =
    (buf ++ w, {| rest := r; lastRune := None |}).
Proof.
  revert l f buf. induction w as [|c w IH]; intros l f buf Hw Hr Hf;
    destruct f as [|f]; cbn in Hf; try lia.
  - cbn [String.append scanIdent_loop]. unfold read. cbn [rest].
    rewrite append_empty_r. destruct r as [|c r]; [reflexivity|].
    cbn in Hr. apply andb_prop in Hr as [H1 H2]. apply negb_true_iff in H1, H2.
    rewrite H2, H1. reflexivity.
  - cbn in Hw. apply andb_prop in Hw as [Hc Hw].
    cbn [String.append scanIdent_loop]. unfold read. cbn [rest].
    rewrite (ident_not_eof c Hc), Hc. cbn [negb].
    rewrite IH by (assumption || lia). rewrite append_assoc_str. reflexivity.
Qed.

Lemma scan_ident c w r l :
  ident_chars (String c w) = true -> ident_end r = true ->
  scan {| rest := String c w ++ r; lastRune := l |} =
    (ident_token (String c w), {| rest := r; lastRune := None |}).
Proof.
  intros Hw Hr. pose proof Hw as Hc. cbn in Hc. apply andb_prop in Hc as [Hc Hw'].
  unfold scan, read. cbn [rest String.append]. rewrite (ident_not_blank c Hc), Hc.
  unfold scanIdent. cbn [unread lastRune rest read].
  rewrite (scanIdent_loop_chars w r (Some c)); [reflexivity|exact Hw'|exact Hr|].
  unfold fuel_of. cbn [rest]. rewrite length_append_str. lia.
Qed.

Lemma scanQuoted_loop_eof w l f buf :
  quotable w = true -> String.length w < f ->
  scanQuoted_loop f buf {| rest := w; lastRune := l |} =
    (buf ++ w, {| rest := ""; lastRune := None |}).
Proof.
  revert l f buf. induction w as [|c w IH]; intros l f buf Hq Hf;
    destruct f as [|f]; cbn in Hf; try lia.
  - cbn. rewrite append_empty_r. reflexivity.
  - cbn in Hq. apply andb_prop in Hq as [Hq Hw]. apply andb_prop in Hq as [Hq _].
    apply andb_prop in Hq as [Hdq Heof].
    apply negb_true_iff in Hdq, Heof.
    cbn [scanQuoted_loop]. unfold read. cbn [rest]. rewrite Heof, Hdq.
    rewrite IH by (assumption || lia). rewrite append_assoc_str. reflexivity.
Qed.

Lemma scan_quoted w r l :
  quotable w = true ->
  scan {| rest := quoted_then w r; lastRune := l |} =
    (newToken STRING w, {| rest := r; lastRune := Some dq |}).
Proof.
  intros Hq. unfold scan, read, quoted_then. cbn [rest].
  change (isWhitespace dq) with false. change (isIdentChar dq) with false.
  change (Ascii.eqb dq dq) with true. cbv iota beta.
  unfold scanQuotedString. rewrite scanQuoted_loop_quotable; [reflexivity|exact Hq|].
  unfold fuel_of. cbn [rest String.length]. rewrite length_append_str. cbn. lia.
Qed.

Lemma scan_unterminated w l :
  quotable w = true ->
  scan {| rest := String dq w; lastRune := l |} =
    (newToken STRING w, {| rest := ""; lastRune := None |}).
Proof.
  intros Hq. unfold scan, read. cbn [rest].
  change (isWhitespace dq) with false. change (isIdentChar dq) with false.
  change (Ascii.eqb dq dq) with true. cbv iota beta.
  unfold scanQuotedString. rewrite scanQuoted_loop_eof; [reflexivity|exact Hq|].
  unfold fuel_of. cbn [rest]. lia.
Qed.

(** A token that [ScanUseful] does not skip is returned by it as [scan]
    returned it. *)
Lemma ScanUseful_scan s t s' :
  scan s = (t, s') -> (typ t =t WS) || (typ t =t HASH) = false ->
  ScanUseful s = (t, s').
Proof. intros E H. unfold ScanUseful, fuel_of. cbn [scanUseful_loop]. rewrite E, H. reflexivity. Qed.

End ScannerFacts.

(** [scan] makes progress: at the end of the input it returns EOF and
    stays there; anywhere else it consumes at least one byte. *)
Theorem scan_consumes_input s :
  (rest s = "" /\ scan s = (newToken EOF "", {| rest := ""; lastRune := None |}))
  \/ (rest s <> "" /\ String.length (rest (snd (scan s))) < String.length (rest s)).
Proof.
  destruct (scan s) as [t s'] eqn:E.
  destruct (ScannerFacts.scan_progress s t s' E) as [(Hr & -> & ->) | L].
  - left. auto.
  - right. split; [|exact L]. intros Hr. rewrite Hr in L. cbn in L. lia.
Qed.

(** Blanks and comment lines are skipped: what [ScanUseful] returns after
    a run of blanks (not followed by a NUL byte) or after a comment line
    is what it returns on the text that follows, whatever was read before. *)
Theorem ScanUseful_skips_blanks_and_comments :
  (forall w r l l', w <> "" -> blanks w = true -> blank_end r = true ->
     ScanUseful {| rest := w ++ r; lastRune := l |} = ScanUseful {| rest := r; lastRune := l' |})
  /\ (forall c r l l', comment_text c = true ->
     ScanUseful {| rest := String "#" (c ++ String nl r); lastRune := l |}
     = ScanUseful {| rest := r; lastRune := l' |}).
Proof.
  split.
  - intros [|b w] r l l' Hne Hw Hr; [contradiction|].
    rewrite (ScannerFacts.ScanUseful_skip _ _ _ (ScannerFacts.scan_blanks b w r l Hw Hr) eq_refl).
    apply ScannerFacts.ScanUseful_lastRune.
  - intros c r l l' Hc.
    rewrite (ScannerFacts.ScanUseful_skip _ _ _ (ScannerFacts.scan_comment c r l Hc) eq_refl).
    apply ScannerFacts.ScanUseful_lastRune.
Qed.

Lemma ScanUseful_skips_blanks_and_comments_witness :
  ScanUseful {| rest := "  " ++ "tx"; lastRune := None |} = ScanUseful {| rest := "tx"; lastRune := None |}
  /\ ScanUseful {| rest := String "#" (" note" ++ String nl "}"); lastRune := None |}
     = ScanUseful {| rest := "}"; lastRune := None |}.
Proof.
  split.
  - apply (proj1 ScanUseful_skips_blanks_and_comments); [discriminate|reflexivity|reflexivity].
  - apply (proj2 ScanUseful_skips_blanks_and_comments). reflexivity.
Defined.

(** An identifier is read whole: a run of letters, digits, [-] and [_]
    followed by the end of the input or by another (non-NUL) byte gives the
    keyword, integer or illegal token [ident_token] assigns to the run, and
    the byte after it is left unread. *)
Theorem ScanUseful_reads_identifier c w r l :
  ident_chars (String c w) = true -> ident_end r = true ->
  ScanUseful {| rest := String c w ++ r; lastRune := l |} =
    (ident_token (String c w), {| rest := r; lastRune := None |}).
Proof.
  intros Hw Hr. apply ScannerFacts.ScanUseful_scan; [apply ScannerFacts.scan_ident; assumption|].
  destruct (ident_token_typ (String c w)) as (_ & _ & _ & H1 & H2).
  destruct (typ (ident_token (String c w))); cbn; try reflexivity; congruence.
Qed.

Lemma ScanUseful_reads_identifier_witness :
  ScanUseful {| rest := "-status" ++ " 200"; lastRune := None |} =
    (ident_token "-status", {| rest := " 200"; lastRune := None |}).
Proof. apply (ScanUseful_reads_identifier "-" "status"); reflexivity. Defined.

(** A double-quoted ASCII text without a double quote or NUL byte reads back as
    one [STRING] token holding exactly that text, and the scanner stops
    right after the closing quote; with no closing quote the string runs
    to the end of the input, without an error. *)
Theorem ScanUseful_reads_quoted w :
  quotable w = true ->
  (forall r l, ScanUseful {| rest := quoted_then w r; lastRune := l |} =
                 (newToken STRING w, {| rest := r; lastRune := Some dq |}))
  /\ (forall l, ScanUseful {| rest := String dq w; lastRune := l |} =
                 (newToken STRING w, {| rest := ""; lastRune := None |})).
Proof.
  intros Hq. split.
  - intros r l. apply ScannerFacts.ScanUseful_scan; [apply ScannerFacts.scan_quoted, Hq|reflexivity].
  - intros l. apply ScannerFacts.ScanUseful_scan; [apply ScannerFacts.scan_unterminated, Hq|reflexivity].
Qed.

Lemma ScanUseful_reads_quoted_witness :
  ScanUseful {| rest := quoted_then "X-Debug: 1" " }"; lastRune := None |} =
    (newToken STRING "X-Debug: 1", {| rest := " }"; lastRune := Some dq |})
  /\ ScanUseful {| rest := String dq "/open"; lastRune := None |} =
    (newToken STRING "/open", {| rest := ""; lastRune := None |}).
Proof.
  split; [apply (proj1 (ScanUseful_reads_quoted "X-Debug: 1" eq_refl))
         |apply (proj2 (ScanUseful_reads_quoted "/open" eq_refl))].
Defined.

(** ** Decimal integers: [strconv.Itoa] and [strconv.Atoi] *)

Module IntFacts.

Lemma digit_char m :
  m < 10 ->
  isDigit (ascii_of_nat (48 + m)) = true /\ nat_of_ascii (ascii_of_nat (48 + m)) - 48 = m.
Proof.
  intros H. do 10 (destruct m as [|m]; [split; reflexivity|]). lia.
Qed.

Lemma dec_digits_value f : forall n acc a,
  (0 <= n < 10 ^ Z.of_nat f)%Z ->
  exists k, digits_value a (dec_digits f n acc) = digits_value (a * 10 ^ Z.of_nat k + n)%Z acc.
Proof.
  induction f as [|f IH]; intros n acc a Hn.
  - exists 0. cbn in *. f_equal. lia.
  - cbn [dec_digits].
    assert (Hm : (0 <= n mod 10 < 10)%Z) by (apply Z.mod_pos_bound; lia).
    destruct (digit_char (Z.to_nat (n mod 10))) as [Hd Hv]; [lia|].
    assert (Hsplit : n = (10 * (n / 10) + n mod 10)%Z) by (apply Z.div_mod; lia).
    destruct (n / 10 =? 0)%Z eqn:Ez.
    + apply Z.eqb_eq in Ez. exists 1. cbn [digits_value]. rewrite Hd, Hv. f_equal.
      rewrite Z2Nat.id by lia. lia.
    + assert (Hf : (0 <= n / 10 < 10 ^ Z.of_nat f)%Z).
      { split; [apply Z.div_pos; lia|].
        rewrite Nat2Z.inj_succ, Z.pow_succ_r in Hn by lia.
        apply Z.div_lt_upper_bound; lia. }
      destruct (IH (n / 10)%Z (String (ascii_of_nat (48 + Z.to_nat (n mod 10))) acc) a Hf)
        as [k Hk].
      exists (S k). rewrite Hk. cbn [digits_value]. rewrite Hd, Hv. f_equal.
      rewrite Z2Nat.id by lia. rewrite Nat2Z.inj_succ, Z.pow_succ_r by lia. lia.
Qed.

Lemma dec_digits_chars f : forall n acc,
  forallb isDigit (list_ascii_of_string acc) = true ->
  forallb isDigit (list_ascii_of_string (dec_digits f n acc)) = true.
Proof.
  induction f as [|f IH]; intros n acc H; [exact H|].
  cbn [dec_digits].
  assert (Hd : isDigit (ascii_of_nat (48 + Z.to_nat (n mod 10))) = true).
  { apply digit_char. assert (0 <= n mod 10 < 10)%Z by (apply Z.mod_pos_bound; lia). lia. }
  destruct (n / 10 =? 0)%Z; [|apply IH]; cbn [list_ascii_of_string forallb]; rewrite Hd, H; reflexivity.
Qed.

Lemma dec_digits_head f : forall n d acc,
  isDigit d = true ->
  exists d' r, dec_digits f n (String d acc) = String d' r /\ isDigit d' = true.
Proof.
  induction f as [|f IH]; intros n d acc Hd; [cbn; eauto|].
  cbn [dec_digits].
  assert (Hd' : isDigit (ascii_of_nat (48 + Z.to_nat (n mod 10))) = true).
  { apply digit_char. assert (0 <= n mod 10 < 10)%Z by (apply Z.mod_pos_bound; lia). lia. }
  destruct (n / 10 =? 0)%Z; [eauto|apply IH, Hd'].
Qed.

Lemma dec_digits_S_head f n acc :
  exists d r, dec_digits (S f) n acc = String d r /\ isDigit d = true.
Proof.
  cbn [dec_digits].
  assert (Hd' : isDigit (ascii_of_nat (48 + Z.to_nat (n mod 10))) = true).
  { apply digit_char. assert (0 <= n mod 10 < 10)%Z by (apply Z.mod_pos_bound; lia). lia. }
  destruct (n / 10 =? 0)%Z; [eauto|apply dec_digits_head, Hd'].
Qed.

Lemma dec_digits_20_head n :
  exists d r, dec_digits 20 n "" = String d r /\ isDigit d = true.
Proof. apply dec_digits_S_head. Qed.

Lemma int64_bounds z : int64_ok z = true -> (- 9223372036854775808 <= z < 9223372036854775808)%Z.
Proof.
  unfold int64_ok. intros H. apply andb_prop in H as [H1 H2].
  apply Z.leb_le in H1. apply Z.ltb_lt in H2. exact (conj H1 H2).
Qed.

Lemma digits_not_sign d : isDigit d = true -> Ascii.eqb d "-" = false /\ Ascii.eqb d "+" = false.
Proof.
  destruct d as [[] [] [] [] [] [] [] []]; cbn; intros H; try discriminate H; split; reflexivity.
Qed.

(** [strconv.Atoi] reads back what [strconv.Itoa] writes, for every 64-bit int. *)
Lemma Atoi_Itoa z : int64_ok z = true -> Atoi (Itoa z) = Some z.
Proof.
  intros Hz. pose proof (int64_bounds z Hz) as [Hlo Hhi].
  assert (P20 : (10 ^ Z.of_nat 20 = 100000000000000000000)%Z) by reflexivity.
  unfold Itoa. destruct (z <? 0)%Z eqn:Hneg.
  - apply Z.ltb_lt in Hneg. cbn [String.append].
    unfold Atoi. cbn -[dec_digits digits_value int64_ok].
    destruct (dec_digits_20_head (- z)) as (d & r & Er & Hd). rewrite Er.
    cbv iota. rewrite <- Er.
    destruct (dec_digits_value 20 (- z) "" 0) as [k Hk]; [lia|]. rewrite Hk.
    cbn [digits_value]. rewrite Z.mul_0_l, Z.add_0_l, Z.opp_involutive, Hz. reflexivity.
  - apply Z.ltb_ge in Hneg.
    destruct (dec_digits_20_head z) as (d & r & Er & Hd).
    destruct (digits_not_sign d Hd) as [Hm Hp].
    unfold Atoi. rewrite Er. rewrite Hm, Hp. cbv iota zeta beta. rewrite <- Er.
    destruct (dec_digits_value 20 z "" 0) as [k Hk]; [lia|]. rewrite Hk.
    cbn [digits_value]. rewrite Z.mul_0_l, Z.add_0_l, Hz. reflexivity.
Qed.

Lemma Itoa_chars z :
  forallb (fun c => isDigit c || Ascii.eqb c "-") (list_ascii_of_string (Itoa z)) = true.
Proof.
  assert (H : forall n, forallb (fun c => isDigit c || Ascii.eqb c "-")
                          (list_ascii_of_string (dec_digits 20 n "")) = true).
  { intros n. pose proof (dec_digits_chars 20 n "" eq_refl) as H.
    induction (list_ascii_of_string (dec_digits 20 n "")) as [|c cs IH]; [reflexivity|].
    cbn in H |- *. apply andb_prop in H as [H1 H2]. rewrite H1. cbn. exact (IH H2). }
  unfold Itoa. destruct (z <? 0)%Z; [cbn [String.append list_ascii_of_string forallb]|]; apply H.
Qed.

Lemma Itoa_head z :
  exists c w, Itoa z = String c w /\ (isDigit c || Ascii.eqb c "-") = true.
Proof.
  unfold Itoa. destruct (z <? 0)%Z.
  - exists "-"%char, (dec_digits 20 (- z) ""). split; reflexivity.
  - destruct (dec_digits_20_head z) as (d & r & E & Hd). exists d, r. rewrite E, Hd. split; reflexivity.
Qed.

Lemma digit_or_minus_ident c : (isDigit c || Ascii.eqb c "-") = true -> isIdentChar c = true.
Proof.
  unfold isIdentChar. intros H. apply orb_prop in H as [H|H]; rewrite H;
  [rewrite orb_true_r | rewrite ?orb_true_r]; reflexivity.
Qed.

Lemma Itoa_ident z : exists c w, Itoa z = String c w /\ ident_chars (String c w) = true.
Proof.
  destruct (Itoa_head z) as (c & w & E & _). exists c, w. split; [exact E|].
  pose proof (Itoa_chars z) as H. rewrite E in H. unfold ident_chars.
  induction (list_ascii_of_string (String c w)) as [|x xs IH]; [reflexivity|].
  cbn in H |- *. apply andb_prop in H as [H1 H2]. rewrite (digit_or_minus_ident x H1). exact (IH H2).
Qed.

Lemma Itoa_blank_end z r : blank_end (Itoa z ++ r) = true.
Proof.
  destruct (Itoa_head z) as (c & w & E & H). rewrite E. cbn [String.append blank_end].
  destruct c as [[] [] [] [] [] [] [] []]; cbn in H |- *; try discriminate H; reflexivity.
Qed.

(** The keyword table of [scanIdent] only holds words with letters, so a
    number is classified by [strconv.Atoi]. *)
Lemma ident_token_integer str v :
  forallb (fun c => isDigit c || Ascii.eqb c "-") (list_ascii_of_string str) = true ->
  Atoi str = Some v -> ident_token str = newToken INTEGER str.
Proof.
  intros Hc Ha. unfold ident_token.
  repeat match goal with
  | |- context [String.eqb str ?k] =>
      let E := fresh "E" in
      destruct (String.eqb str k) eqn:E;
      [apply String.eqb_eq in E; subst str; discriminate Hc|]
  end.
  rewrite Ha. reflexivity.
Qed.

(** A [-status] argument with a 64-bit integer: the status code is set
    and the loop goes on after the number. *)
Lemma TxResp_loop_status f r0 z r l :
  int64_ok z = true -> ident_end r = true ->
  TxResp.loop (S f) r0 {| rest := "-status " ++ Itoa z ++ r; lastRune := l |} =
  TxResp.loop f {| TxResp.statusCode := z; TxResp.headers := TxResp.headers r0;
                   TxResp.body := TxResp.body r0 |} {| rest := r; lastRune := None |}.
Proof.
  intros Hz Hr.
  assert (H1 : ScanUseful {| rest := "-status " ++ Itoa z ++ r; lastRune := l |} =
                 (newToken STATUS_ARG "-status", {| rest := " " ++ Itoa z ++ r; lastRune := None |})).
  { change ("-status " ++ Itoa z ++ r) with (String "-" "status" ++ (" " ++ (Itoa z ++ r))).
    change (newToken STATUS_ARG "-status") with (ident_token (String "-" "status")).
    apply ScannerFacts.ScanUseful_scan; [apply ScannerFacts.scan_ident; reflexivity | reflexivity]. }
  destruct (Itoa_ident z) as (c & w & Ei & Hi).
  assert (H2 : ScanUseful {| rest := " " ++ Itoa z ++ r; lastRune := None |} =
                 (newToken INTEGER (Itoa z), {| rest := r; lastRune := None |})).
  { rewrite (ScannerFacts.ScanUseful_skip _ (newToken WS " ") {| rest := Itoa z ++ r; lastRune := None |}).
    - rewrite <- (ident_token_integer (Itoa z) z (Itoa_chars z) (Atoi_Itoa z Hz)).
      rewrite Ei. apply ScannerFacts.ScanUseful_scan; [apply ScannerFacts.scan_ident; assumption|].
      rewrite <- Ei, (ident_token_integer (Itoa z) z (Itoa_chars z) (Atoi_Itoa z Hz)). reflexivity.
    - change (" " ++ Itoa z ++ r) with (String " " "" ++ (Itoa z ++ r)).
      apply ScannerFacts.scan_blanks; [reflexivity | apply Itoa_blank_end].
    - reflexivity. }
  cbn [TxResp.loop]. unfold bind, scanUsefulP. rewrite H1. cbn -[ScanUseful Itoa].
  change (String " " (Itoa z ++ r)) with (" " ++ Itoa z ++ r). rewrite H2. cbn -[ScanUseful Itoa Atoi TxResp.loop]. rewrite (Atoi_Itoa z Hz). reflexivity.
Qed.

End IntFacts.

(** [TxResp.Parse] takes [-status N] for every 64-bit int [N], also outside
    the range of HTTP status codes: the number written by [strconv.Itoa]
    comes back as the status code, headers stay empty, the body stays
    empty, and the closing brace is left unread. *)
Theorem TxResp_Parse_status_any_int64 z r l :
  int64_ok z = true ->
  TxResp.Parse {| rest := "-status " ++ Itoa z ++ String "}" r; lastRune := l |} =
    Ok ({| TxResp.statusCode := z; TxResp.headers := []; TxResp.body := "" |},
        {| rest := String "}" r; lastRune := None |}).
Proof.
  intros Hz. unfold TxResp.Parse, with_fuel, fuel_of. cbn [rest].
  replace (String.length ("-status " ++ Itoa z ++ String "}" r))
    with (S (S (6 + String.length (Itoa z ++ String "}" r))))
    by (cbn [String.append String.length]; lia).
  rewrite IntFacts.TxResp_loop_status by (exact Hz || reflexivity). cbn [TxResp.headers TxResp.body].
  apply (TxResp_loop_stop _ _ _ (char_token "}") {| rest := r; lastRune := Some "}"%char |});
    reflexivity.
Qed.

Lemma TxResp_Parse_status_any_int64_witness :
  int64_ok 99999 = true /\
  TxResp.Parse {| rest := "-status " ++ Itoa 99999 ++ String "}" ""; lastRune := None |} =
    Ok ({| TxResp.statusCode := 99999; TxResp.headers := []; TxResp.body := "" |},
        {| rest := String "}" ""; lastRune := None |}).
Proof. split; [reflexivity | apply TxResp_Parse_status_any_int64; reflexivity]. Defined.

(** ** The stanza parsers at the end of the input *)

Module ParserFacts.

Lemma ScanUseful_end l :
  ScanUseful {| rest := ""; lastRune := l |} = (newToken EOF "", {| rest := ""; lastRune := None |}).
Proof. reflexivity. Qed.

(** At the end of the input [ScanUseful] keeps returning EOF, which is
    neither [}] nor a command: the block loops never exit. *)
Lemma parseHandle_loop_eof f : forall h l,
  parseHandle_loop f h {| rest := ""; lastRune := l |} = Diverge.
Proof.
  induction f as [|f IH]; intros h l; [reflexivity|].
  cbn [parseHandle_loop]. unfold bind at 1, scanUsefulP. rewrite ScanUseful_end.
  cbn -[parseHandle_loop]. apply IH.
Qed.

Lemma parseClient_loop_eof f : forall c l,
  parseClient_loop f c {| rest := ""; lastRune := l |} = Diverge.
Proof.
  induction f as [|f IH]; intros c l; [reflexivity|].
  cbn [parseClient_loop]. unfold bind at 1, scanUsefulP. rewrite ScanUseful_end.
  cbn -[parseClient_loop]. apply IH.
Qed.

Lemma parseHandle_unterminated p l :
  quotable p = true ->
  parseHandle {| rest := String " " (quoted_then (String "/" p) " {"); lastRune := l |} = Diverge.
Proof.
  intros Hq. unfold parseHandle, bind at 1, scanUsefulP.
  assert (Hq' : quotable (String "/" p) = true) by exact Hq.
  rewrite (ScanUseful_space_quoted _ _ _ Hq'). cbn -[ScanUseful parseHandle_loop].
  unfold bind, scanUsefulP. cbn -[parseHandle_loop]. apply parseHandle_loop_eof.
Qed.

Lemma parseClient_unterminated n l :
  quotable n = true ->
  parseClient {| rest := String " " (quoted_then n " {"); lastRune := l |} = Diverge.
Proof.
  intros Hq. unfold parseClient, bind at 1, scanUsefulP.
  rewrite (ScanUseful_space_quoted _ _ _ Hq). cbn -[ScanUseful parseClient_loop].
  unfold bind, scanUsefulP. cbn -[parseClient_loop]. apply parseClient_loop_eof.
Qed.

End ParserFacts.

(** A [handle] or [client] stanza whose input ends right after the
    opening brace of its block makes [Parse] loop forever instead of
    failing: the block loops read EOF again and again, as EOF is neither
    [}] nor a command. *)
Theorem Parse_unterminated_block_diverges p n :
  quotable p = true -> quotable n = true ->
  Parse ("handle" ++ String " " (quoted_then (String "/" p) " {")) = Diverge /\
  Parse ("client" ++ String " " (quoted_then n " {")) = Diverge.
Proof.
  intros Hp Hn. split; unfold Parse, with_fuel, fuel_of; cbn [Parse_loop];
    unfold bind at 1, scanUsefulP.
  - change (ScanUseful (newScanner ("handle" ++ String " " (quoted_then (String "/" p) " {"))))
      with (newToken HANDLE "handle",
            {| rest := String " " (quoted_then (String "/" p) " {"); lastRune := None |}).
    cbn -[parseHandle Parse_loop]. unfold bind.
    rewrite (ParserFacts.parseHandle_unterminated p None Hp). reflexivity.
  - change (ScanUseful (newScanner ("client" ++ String " " (quoted_then n " {"))))
      with (newToken CLIENT "client",
            {| rest := String " " (quoted_then n " {"); lastRune := None |}).
    cbn -[parseClient Parse_loop]. unfold bind.
    rewrite (ParserFacts.parseClient_unterminated n None Hn). reflexivity.
Qed.

Lemma Parse_unterminated_block_diverges_witness :
  (quotable "hello" = true /\ quotable "c1" = true) /\
  Parse ("handle" ++ String " " (quoted_then (String "/" "hello") " {")) = Diverge /\
  Parse ("client" ++ String " " (quoted_then "c1" " {")) = Diverge.
Proof.
  split; [split; reflexivity|]. apply Parse_unterminated_block_diverges; reflexivity.
Defined.

(** ** Tokens [Parse] refuses at the top level *)

Module TopLevelFacts.

Lemma char_token_illegal c :
  (typ (char_token c) =t ILLEGAL) = true -> char_token c = newToken ILLEGAL (str1 c).
Proof.
  unfold char_token.
  repeat match goal with
  | |- context [Ascii.eqb c ?k] => destruct (Ascii.eqb c k); [discriminate|]
  end.
  reflexivity.
Qed.

Lemma ident_token_illegal w :
  (typ (ident_token w) =t ILLEGAL) = true -> ident_token w = newToken ILLEGAL w.
Proof.
  unfold ident_token.
  repeat match goal with
  | |- context [String.eqb w ?k] => destruct (String.eqb w k); [discriminate|]
  end.
  destruct (Atoi w); [discriminate|reflexivity].
Qed.

Lemma scan_stray c r l :
  stray_byte c = true ->
  scan {| rest := String c r; lastRune := l |} =
    (newToken ILLEGAL (str1 c), {| rest := r; lastRune := Some c |}).
Proof.
  unfold stray_byte. intros H.
  apply andb_prop in H as [H H5]. apply andb_prop in H as [H H4].
  apply andb_prop in H as [H H3]. apply andb_prop in H as [H H2].
  apply andb_prop in H as [_ H1].
  apply negb_true_iff in H1, H2, H3, H4.
  unfold scan, read. cbn [rest]. rewrite H1, H2, H3, H4.
  rewrite (char_token_illegal c H5). reflexivity.
Qed.

(** [Parse] on an input whose first token is ILLEGAL. *)
Lemma Parse_illegal_first input t s1 :
  ScanUseful (newScanner input) = (t, s1) -> (typ t =t ILLEGAL) = true ->
  Parse input = Err ("Parse error: " ++ token_String t).
Proof.
  intros E H. unfold Parse, with_fuel. unfold fuel_of at 1. cbn [Parse_loop].
  unfold bind at 1, scanUsefulP. rewrite E.
  destruct t as [k v]. cbn [typ] in H. destruct k; try discriminate H. reflexivity.
Qed.

End TopLevelFacts.

(** [Parse] stops at the first byte of the input when that byte is an
    ASCII character of no kind the scanner knows (a control character
    included), and reports it as an ILLEGAL token, quoted as by [%q]. *)
Theorem Parse_rejects_stray_byte c r :
  stray_byte c = true ->
  Parse (String c r) = Err ("Parse error: ILLEGAL token " ++ goq (String c "")).
Proof.
  intros H.
  rewrite (TopLevelFacts.Parse_illegal_first _ (newToken ILLEGAL (str1 c))
             {| rest := r; lastRune := Some c |}); [reflexivity| |reflexivity].
  apply ScannerFacts.ScanUseful_scan; [apply TopLevelFacts.scan_stray, H|reflexivity].
Qed.

Lemma Parse_rejects_stray_byte_witness :
  stray_byte "@" = true /\
  Parse (String "@" " handle {}") = Err ("Parse error: ILLEGAL token " ++ goq "@").
Proof. split; [reflexivity|apply Parse_rejects_stray_byte; reflexivity]. Defined.

(** A word at the top level that is neither a keyword nor an integer (a
    misspelt [handle], say) makes [Parse] fail with that word. *)
Theorem Parse_rejects_unknown_word c w r :
  ident_chars (String c w) = true -> ident_end r = true ->
  (typ (ident_token (String c w)) =t ILLEGAL) = true ->
  Parse (String c w ++ r) = Err ("Parse error: ILLEGAL token " ++ goq (String c w)).
Proof.
  intros Hw Hr H.
  rewrite (TopLevelFacts.Parse_illegal_first _ (newToken ILLEGAL (String c w))
             {| rest := r; lastRune := None |}); [reflexivity| |reflexivity].
  rewrite <- (TopLevelFacts.ident_token_illegal _ H).
  apply ScannerFacts.ScanUseful_scan; [apply ScannerFacts.scan_ident; assumption|].
  rewrite (TopLevelFacts.ident_token_illegal _ H). reflexivity.
Qed.

Lemma Parse_rejects_unknown_word_witness :
  (ident_chars "hadle" = true /\ ident_end " {}" = true /\
   (typ (ident_token "hadle") =t ILLEGAL) = true) /\
  Parse ("hadle" ++ " {}") = Err ("Parse error: ILLEGAL token " ++ goq "hadle").
Proof.
  split; [repeat split|apply Parse_rejects_unknown_word; reflexivity].
Defined.

(** A NUL byte reads as the end of the input ([read] returns rune 0 for
    both): an input that starts with one has no stanza, whatever follows. *)
Theorem Parse_NUL_ends_input r : Parse (String eof r) = Err no_stanza_error.
Proof. reflexivity. Qed.

(** ** What a successful [Parse] returns *)

Module ResultFacts.

Ltac step_cases H :=
  repeat (cbn beta iota in H;
    match type of H with
    | context [ScanUseful ?x] => destruct (ScanUseful x) as [? ?]
    | context [match ?m with Ok _ => _ | Err _ => _ | Panic _ => _ | Fatal _ => _ | Diverge => _ end] =>
        let E := fresh "E" in destruct m as [[? ?]| | | |] eqn:E
    | context [if ?b then _ else _] => destruct b eqn:?
    end); try discriminate.

Lemma Forall_snoc {A} (Q : A -> Prop) l x : Forall Q l -> Q x -> Forall Q (l ++ [x]).
Proof. intros H1 H2. apply Forall_app. split; [exact H1 | constructor; [exact H2 | constructor]]. Qed.

Lemma parseHandle_loop_inv f : forall h s h' s',
  parseHandle_loop f h s = Ok (h', s') ->
  URIPath h' = URIPath h /\
  (Forall (fun e => operator e = EQUAL \/ operator e = NOTEQUAL \/ operator e = TILDE) (Expectations h) ->
   Forall (fun e => operator e = EQUAL \/ operator e = NOTEQUAL \/ operator e = TILDE) (Expectations h')).
Proof.
  induction f as [|f IH]; intros h s h' s' H; [discriminate|].
  cbn [parseHandle_loop] in H. unfold bind, scanUsefulP, ret, fail in H.
  step_cases H;
  repeat match goal with E : (if _ then _ else _) _ = Ok _ |- _ => step_cases E end;
  repeat match goal with E : Ok _ = Ok _ |- _ => inversion E; subst; clear E end;
  try (split; [reflexivity|tauto]);
  cbn [URIPath Expectations] in *;
  try (match goal with H : parseHandle_loop _ _ _ = Ok _ |- _ => apply IH in H as [Hp Hf] end;
       cbn [URIPath Expectations] in Hp, Hf);
  (split; [congruence|]; intros HF);
  try apply Hf; try apply Forall_snoc; try assumption;
  eapply Expect_Parse_operator_valid; eassumption.
Qed.

Lemma parseClient_loop_inv f : forall c s c' s',
  parseClient_loop f c s = Ok (c', s') ->
  Forall (fun e => operator e = EQUAL \/ operator e = NOTEQUAL \/ operator e = TILDE) (ClientExpectations c) ->
  Forall (fun e => operator e = EQUAL \/ operator e = NOTEQUAL \/ operator e = TILDE) (ClientExpectations c').
Proof.
  induction f as [|f IH]; intros c s c' s' H HF; [discriminate|].
  cbn [parseClient_loop] in H. unfold bind, scanUsefulP, ret, fail in H.
  step_cases H;
  repeat match goal with E : (if _ then _ else _) _ = Ok _ |- _ => step_cases E end;
  repeat match goal with E : Ok _ = Ok _ |- _ => inversion E; subst; clear E end;
  try assumption;
  (eapply IH; [eassumption|]); cbn [ClientExpectations] in *;
  try assumption; apply Forall_snoc; try assumption;
  eapply Expect_Parse_operator_valid; eassumption.
Qed.

Lemma parseHandle_inv s h s' :
  parseHandle s = Ok (h, s') ->
  (exists p, URIPath h = String "/" p) /\
  Forall (fun e => operator e = EQUAL \/ operator e = NOTEQUAL \/ operator e = TILDE) (Expectations h).
Proof.
  intros H. unfold parseHandle, with_fuel, bind, scanUsefulP, ret, fail, panic in H.
  destruct (ScanUseful s) as [t s1]. cbn beta iota in H.
  destruct (negb (typ t =t STRING)); [discriminate|].
  destruct (val t) as [|c p] eqn:Ev; [discriminate|].
  destruct (negb (Ascii.eqb c "/")) eqn:Ec; [discriminate|].
  cbn beta iota in H. destruct (ScanUseful s1) as [t2 s2]. cbn beta iota in H.
  destruct (negb (typ t2 =t OPEN_CURLY)); [discriminate|].
  apply parseHandle_loop_inv in H as [Hp Hf]. cbn [URIPath Expectations] in Hp, Hf.
  apply negb_false_iff, Ascii.eqb_eq in Ec. subst c.
  split; [exists p; exact Hp | apply Hf; constructor].
Qed.

Lemma parseClient_inv s c s' :
  parseClient s = Ok (c, s') ->
  Forall (fun e => operator e = EQUAL \/ operator e = NOTEQUAL \/ operator e = TILDE) (ClientExpectations c).
Proof.
  intros H. unfold parseClient, with_fuel, bind, scanUsefulP, ret, fail in H.
  destruct (ScanUseful s) as [t s1]. cbn beta iota in H.
  destruct (negb (typ t =t STRING)); [discriminate|].
  destruct (ScanUseful s1) as [t2 s2]. cbn beta iota in H.
  destruct (negb (typ t2 =t OPEN_CURLY)); [discriminate|].
  eapply parseClient_loop_inv; [exact H|constructor].
Qed.

Lemma Parse_loop_inv f : forall hs cs s hs' cs' s',
  Parse_loop f hs cs s = Ok ((hs', cs'), s') ->
  Forall (fun h => (exists p, URIPath h = String "/" p) /\
            Forall (fun e => operator e = EQUAL \/ operator e = NOTEQUAL \/ operator e = TILDE)
              (Expectations h)) hs ->
  Forall (fun c => Forall (fun e => operator e = EQUAL \/ operator e = NOTEQUAL \/ operator e = TILDE)
              (ClientExpectations c)) cs ->
  Forall (fun h => (exists p, URIPath h = String "/" p) /\
            Forall (fun e => operator e = EQUAL \/ operator e = NOTEQUAL \/ operator e = TILDE)
              (Expectations h)) hs' /\
  Forall (fun c => Forall (fun e => operator e = EQUAL \/ operator e = NOTEQUAL \/ operator e = TILDE)
              (ClientExpectations c)) cs'.
Proof.
  induction f as [|f IH]; intros hs cs s hs' cs' s' H Hh Hc; [discriminate|].
  cbn [Parse_loop] in H. unfold bind, scanUsefulP, ret, fail in H.
  step_cases H;
  repeat match goal with E : (if _ then _ else _) _ = Ok _ |- _ => step_cases E end;
  repeat match goal with E : Ok _ = Ok _ |- _ => inversion E; subst; clear E end;
  try (split; assumption);
  (eapply IH; [eassumption| |]);
  try assumption; apply Forall_snoc; try assumption;
  first [eapply parseHandle_inv | eapply parseClient_inv]; eassumption.
Qed.

End ResultFacts.

(** What [Parse] returns when it succeeds: at least one stanza; every
    handler's URI path starts with a slash; and every expectation, of a
    handler or of a client, has the operator [eq], [ne] or [~], so that
    [expectThing] never reaches its unknown-operator panic on them. *)
Theorem Parse_result_well_formed input hs cs :
  Parse input = Ok (hs, cs) ->
  (hs <> [] \/ cs <> []) /\
  Forall (fun h => (exists p, URIPath h = String "/" p) /\
            Forall (fun e => operator e = EQUAL \/ operator e = NOTEQUAL \/ operator e = TILDE)
              (Expectations h)) hs /\
  Forall (fun c => Forall (fun e => operator e = EQUAL \/ operator e = NOTEQUAL \/ operator e = TILDE)
              (ClientExpectations c)) cs.
Proof.
  intros H. unfold Parse, with_fuel in H.
  destruct (Parse_loop (fuel_of (newScanner input)) [] [] (newScanner input))
    as [[[hs' cs'] s']| | | |] eqn:E; try discriminate H.
  cbn [obind] in H.
  apply ResultFacts.Parse_loop_inv in E as [Hh Hc]; [|constructor|constructor].
  destruct hs' as [|h0 hs'], cs' as [|c0 cs']; try discriminate H;
    inversion H; subst; (split; [first [now left | now right] | split; assumption]).
Qed.

Lemma Parse_result_well_formed_witness :
  let hs := [{| URIPath := "/x";
                Expectations := [{| verbatim := "req.method eq " ++ quoted "GET";
                                    field := EXPECT_METHOD; headerName := "";
                                    operator := EQUAL; expected := "GET" |}];
                Response := TxResp.zero |}] in
  let cs := [{| Name := "c";
                Request := {| TxReq.uri := "/x"; TxReq.method := "GET";
                              TxReq.headers := []; TxReq.body := "" |};
                ClientExpectations := [{| verbatim := "resp.status ne " ++ quoted "500";
                                          field := EXPECT_STATUS; headerName := "";
                                          operator := NOTEQUAL; expected := "500" |}] |}] in
  Parse two_stanzas = Ok (hs, cs) /\
  ((hs <> [] \/ cs <> []) /\
   Forall (fun h => (exists p, URIPath h = String "/" p) /\
             Forall (fun e => operator e = EQUAL \/ operator e = NOTEQUAL \/ operator e = TILDE)
               (Expectations h)) hs /\
   Forall (fun c => Forall (fun e => operator e = EQUAL \/ operator e = NOTEQUAL \/ operator e = TILDE)
               (ClientExpectations c)) cs).
Proof.
  intros hs cs. assert (E : Parse two_stanzas = Ok (hs, cs)) by (vm_compute; reflexivity).
  split; [exact E | apply (Parse_result_well_formed two_stanzas hs cs E)].
Defined.

Module ExpectFacts.

Lemma ScanUseful_word w r l :
  ident_chars w = true -> w <> "" -> ident_end r = true ->
  (typ (ident_token w) =t WS) || (typ (ident_token w) =t HASH) = false ->
  ScanUseful {| rest := w ++ r; lastRune := l |} = (ident_token w, {| rest := r; lastRune := None |}).
Proof.
  destruct w as [|c w]; intros Hw Hne Hr Ht; [congruence|].
  apply ScannerFacts.ScanUseful_scan; [apply ScannerFacts.scan_ident; assumption | exact Ht].
Qed.

Lemma Expect_Parse_header_verb v s :
  Expect_Parse_header v s =
    match Expect_Parse_header "" s with
    | Ok ((x, h), s') => Ok ((v ++ x, h), s')
    | Err m => Err m
    | Panic m => Panic m
    | Fatal m => Fatal m
    | Diverge => Diverge
    end.
Proof.
  unfold Expect_Parse_header, bind, scanUsefulP, ret, fail.
  repeat (cbn beta iota zeta;
    match goal with
    | |- context [ScanUseful ?x] => destruct (ScanUseful x)
    | |- context [if ?b then _ else _] => destruct b
    end); try reflexivity.
  rewrite !append_assoc_str. reflexivity.
Qed.

Lemma Expect_Parse_header_total v s :
  match Expect_Parse_header v s with Ok _ | Err _ => True | _ => False end.
Proof.
  unfold Expect_Parse_header, bind, scanUsefulP, ret, fail.
  repeat (cbn beta iota zeta;
    match goal with
    | |- context [ScanUseful ?x] => destruct (ScanUseful x)
    | |- context [if ?b then _ else _] => destruct b
    end); exact I.
Qed.

Ltac expect_cases :=
  repeat (cbn beta iota zeta;
    match goal with
    | |- context [Expect_Parse_header (String ?c ?v) ?x] =>
        rewrite (Expect_Parse_header_verb (String c v) x)
    | |- context [ScanUseful ?x] => destruct (ScanUseful x)
    | |- context [if ?b then _ else _] => destruct b
    | |- context [match ?k with METHOD => _ | _ => _ end] => destruct k
    | |- context [match Expect_Parse_header "" ?x with Ok _ => _ | _ => _ end] =>
        let HT := fresh "HT" in
        pose proof (Expect_Parse_header_total "" x) as HT;
        destruct (Expect_Parse_header "" x) as [[[? ?] ?]| | | |];
        [clear HT | clear HT | contradiction HT | contradiction HT | contradiction HT]
    end); cbn [fail ret] in *.

End ExpectFacts.

(** [Expect.Parse] reads [req] and [resp] alike: with the same text after
    the word, both fail with the same message or both give the same field,
    header name, operator and expected value and stop at the same place;
    only the verbatim text keeps the word. So nothing records whether an
    expectation was written about the request or the response. *)
Theorem Expect_Parse_req_resp_alike r l :
  ident_end r = true ->
  match Expect_Parse {| rest := "req" ++ r; lastRune := l |},
        Expect_Parse {| rest := "resp" ++ r; lastRune := l |} with
  | Ok (e1, s1), Ok (e2, s2) =>
      s1 = s2 /\ field e1 = field e2 /\ headerName e1 = headerName e2 /\
      operator e1 = operator e2 /\ expected e1 = expected e2 /\
      exists v, verbatim e1 = "req" ++ v /\ verbatim e2 = "resp" ++ v
  | Err m1, Err m2 => m1 = m2
  | _, _ => False
  end.
Proof.
  intros Hr. unfold Expect_Parse, bind, scanUsefulP.
  rewrite (ExpectFacts.ScanUseful_word "req" r l), (ExpectFacts.ScanUseful_word "resp" r l);
    try assumption; try reflexivity; try discriminate.
  cbn -[ScanUseful Expect_Parse_header].
  ExpectFacts.expect_cases; ExpectFacts.expect_cases;
  first [ reflexivity
        | exact I
        | cbn [verbatim field headerName operator expected];
          (split; [reflexivity|]); (split; [reflexivity|]); (split; [reflexivity|]);
          (split; [reflexivity|]); (split; [reflexivity|]); eexists; split; reflexivity ].
Qed.

Lemma Expect_Parse_req_resp_alike_witness :
  ident_end (".status eq " ++ quoted "200") = true /\
  match Expect_Parse {| rest := "req" ++ (".status eq " ++ quoted "200"); lastRune := None |},
        Expect_Parse {| rest := "resp" ++ (".status eq " ++ quoted "200"); lastRune := None |} with
  | Ok (e1, s1), Ok (e2, s2) =>
      s1 = s2 /\ field e1 = field e2 /\ headerName e1 = headerName e2 /\
      operator e1 = operator e2 /\ expected e1 = expected e2 /\
      exists v, verbatim e1 = "req" ++ v /\ verbatim e2 = "resp" ++ v
  | Err m1, Err m2 => m1 = m2
  | _, _ => False
  end.
Proof. split; [reflexivity | apply Expect_Parse_req_resp_alike; reflexivity]. Defined.

(** ** The iterations of [Parse] are enough *)

Module FuelFacts.

Lemma pending_read s : pending (snd (read s)) = String.length (rest s).
Proof. unfold pending, read. destruct (rest s); reflexivity. Qed.

Lemma rest_le_pending s : String.length (rest s) <= pending s.
Proof. destruct s as [r [c|]]; cbn; lia. Qed.

Lemma pending_unread s : pending (unread s) = pending s.
Proof. destruct s as [r [c|]]; reflexivity. Qed.

Ltac read_step s :=
  let ch := fresh "ch" in let s1 := fresh "s1" in let E := fresh "E" in let P := fresh "P" in
  destruct (read s) as [ch s1] eqn:E;
  pose proof (pending_read s) as P; rewrite E in P; cbn [snd] in P.

Lemma scanWhitespace_loop_pending f : forall s, pending (scanWhitespace_loop f s) <= pending s.
Proof.
  induction f as [|f IH]; intros s; [reflexivity|].
  cbn [scanWhitespace_loop]. read_step s. pose proof (rest_le_pending s).
  destruct (Ascii.eqb ch eof); [lia|].
  destruct (negb (isWhitespace ch)); [rewrite pending_unread; lia|].
  specialize (IH s1). lia.
Qed.

Lemma scanIdent_loop_pending f : forall buf s, pending (snd (scanIdent_loop f buf s)) <= pending s.
Proof.
  induction f as [|f IH]; intros buf s; [reflexivity|].
  cbn [scanIdent_loop]. read_step s. pose proof (rest_le_pending s).
  destruct (Ascii.eqb ch eof); [cbn [snd]; lia|].
  destruct (negb (isIdentChar ch)); [cbn [snd]; rewrite pending_unread; lia|].
  specialize (IH (buf ++ str1 ch) s1). lia.
Qed.

Lemma scanQuoted_loop_pending f : forall buf s, pending (snd (scanQuoted_loop f buf s)) <= pending s.
Proof.
  induction f as [|f IH]; intros buf s; [reflexivity|].
  cbn [scanQuoted_loop]. read_step s. pose proof (rest_le_pending s).
  destruct (Ascii.eqb ch eof); [cbn [snd]; lia|].
  destruct (Ascii.eqb ch dq); [cbn [snd]; lia|].
  specialize (IH (buf ++ str1 ch) s1). lia.
Qed.

Lemma scanComment_loop_pending f : forall s, pending (snd (scanComment_loop f s)) <= pending s.
Proof.
  induction f as [|f IH]; intros s; [reflexivity|].
  cbn [scanComment_loop]. read_step s. pose proof (rest_le_pending s).
  destruct (Ascii.eqb ch nl); [cbn [snd]; lia|].
  destruct (Ascii.eqb ch eof); [cbn [snd]; lia|].
  specialize (IH s1). lia.
Qed.

Lemma scan_pending s t out : scan s = (t, out) -> pending out <= String.length (rest s).
Proof.
  intros H. unfold scan in H.
  destruct (read s) as [ch s1] eqn:E.
  pose proof (pending_read s) as P; rewrite E in P; cbn [snd] in P.
  destruct (isWhitespace ch).
  { unfold scanWhitespace in H. apply (f_equal snd) in H. cbn [snd] in H. subst out.
    pose proof (scanWhitespace_loop_pending (fuel_of (unread s1)) (unread s1)).
    rewrite pending_unread in *. lia. }
  destruct (isIdentChar ch).
  { unfold scanIdent in H.
    destruct (read (unread s1)) as [c2 s2] eqn:E2.
    pose proof (pending_read (unread s1)) as P2; rewrite E2 in P2; cbn [snd] in P2.
    destruct (scanIdent_loop _ _ _) as [str s3] eqn:Ei.
    apply (f_equal snd) in H. cbn [snd] in H. subst out.
    pose proof (scanIdent_loop_pending (fuel_of s2) (str1 c2) s2) as L.
    rewrite Ei in L. cbn [snd] in L. pose proof (rest_le_pending (unread s1)).
    rewrite pending_unread in *. lia. }
  destruct (Ascii.eqb ch dq).
  { unfold scanQuotedString in H.
    destruct (scanQuoted_loop _ _ _) as [buf s3] eqn:Eq.
    apply (f_equal snd) in H. cbn [snd] in H. subst out.
    pose proof (scanQuoted_loop_pending (fuel_of s1) EmptyString s1) as L.
    rewrite Eq in L. cbn [snd] in L. lia. }
  destruct (Ascii.eqb ch "#").
  { destruct (scanComment_loop _ _) as [b s3] eqn:Ec.
    pose proof (scanComment_loop_pending (fuel_of s1) s1) as L.
    rewrite Ec in L. cbn [snd] in L.
    destruct b; apply (f_equal snd) in H; cbn [snd] in H; subst out; lia. }
  apply (f_equal snd) in H. cbn [snd] in H. subst out. lia.
Qed.

Lemma scanUseful_loop_pending f : forall s t out,
  scanUseful_loop f s = (t, out) -> pending out <= String.length (rest s).
Proof.
  induction f as [|f IH]; intros s t out H; cbn [scanUseful_loop] in H;
    destruct (scan s) as [t0 s0] eqn:E; pose proof (scan_pending _ _ _ E) as L;
    destruct ((typ t0 =t WS) || (typ t0 =t HASH));
    try (apply (f_equal snd) in H; cbn [snd] in H; subst out; lia).
  apply IH in H. pose proof (rest_le_pending s0). lia.
Qed.

Lemma ScanUseful_pending s t out :
  ScanUseful s = (t, out) -> pending out <= String.length (rest s).
Proof. apply scanUseful_loop_pending. Qed.

Lemma scanUseful_loop_progress f : forall s t out,
  scanUseful_loop f s = (t, out) -> typ t <> EOF ->
  String.length (rest out) < String.length (rest s).
Proof.
  induction f as [|f IH]; intros s t out H Ht; cbn [scanUseful_loop] in H;
    destruct (scan s) as [t0 s0] eqn:E;
    (destruct (ScannerFacts.scan_progress s t0 s0 E) as [(_ & -> & ->) | L];
     [cbn in H; inversion H; subst; cbn in Ht; congruence|]);
    destruct ((typ t0 =t WS) || (typ t0 =t HASH));
    try (apply (f_equal snd) in H; cbn [snd] in H; subst out; lia).
  apply IH in H; [lia|exact Ht].
Qed.

Lemma ScanUseful_progress s t out :
  ScanUseful s = (t, out) -> typ t <> EOF -> String.length (rest out) < String.length (rest s).
Proof. apply scanUseful_loop_progress. Qed.

Lemma bind_keeps {A B} (m : P A) (k : A -> P B) :
  keeps_pending m -> (forall a, keeps_pending (k a)) -> keeps_pending (bind m k).
Proof.
  unfold keeps_pending, bind. intros Hm Hk s x s' H.
  destruct (m s) as [[a s1]| | | |] eqn:E; try discriminate H.
  specialize (Hm _ _ _ E). specialize (Hk _ _ _ _ H). lia.
Qed.

Lemma ret_keeps {A} (a : A) : keeps_pending (ret a).
Proof. intros s x s' H. inversion H. lia. Qed.

Lemma fail_keeps {A} m : keeps_pending (@fail A m).
Proof. intros s x s' H. discriminate H. Qed.

Lemma panic_keeps {A} m : keeps_pending (@panic A m).
Proof. intros s x s' H. discriminate H. Qed.

Lemma diverge_keeps {A} : keeps_pending (@diverge A).
Proof. intros s x s' H. discriminate H. Qed.

Lemma scanUsefulP_keeps : keeps_pending scanUsefulP.
Proof.
  intros s x s' H. unfold scanUsefulP in H. inversion H as [H1].
  pose proof (ScanUseful_pending s x s' H1). pose proof (rest_le_pending s). lia.
Qed.

Lemma unreadP_keeps : keeps_pending unreadP.
Proof. intros s x s' H. unfold unreadP in H. inversion H. rewrite pending_unread. lia. Qed.

Lemma with_fuel_keeps {A} (k : nat -> P A) :
  (forall n, keeps_pending (k n)) -> keeps_pending (with_fuel k).
Proof. intros Hk s x s' H. exact (Hk _ _ _ _ H). Qed.

Ltac keeps_tac :=
  repeat (cbv zeta; first
    [ apply bind_keeps; [|intro]
    | apply ret_keeps | apply fail_keeps | apply panic_keeps | apply diverge_keeps
    | apply scanUsefulP_keeps | apply unreadP_keeps
    | apply with_fuel_keeps; intro
    | match goal with
      | |- keeps_pending (if ?b then _ else _) => destruct b
      | |- keeps_pending (match ?x with _ => _ end) => destruct x
      end ]).

Lemma Expect_Parse_header_keeps v : keeps_pending (Expect_Parse_header v).
Proof. unfold Expect_Parse_header. keeps_tac. Qed.

Lemma Expect_Parse_keeps : keeps_pending Expect_Parse.
Proof. unfold Expect_Parse. keeps_tac. Qed.

Lemma TxResp_loop_keeps f : forall r, keeps_pending (TxResp.loop f r).
Proof. induction f as [|f IH]; intros r; cbn [TxResp.loop]; keeps_tac; apply IH. Qed.

Lemma TxReq_loop_keeps f : forall r, keeps_pending (TxReq.loop f r).
Proof. induction f as [|f IH]; intros r; cbn [TxReq.loop]; keeps_tac; apply IH. Qed.

Lemma parseHandle_loop_keeps f : forall h, keeps_pending (parseHandle_loop f h).
Proof.
  induction f as [|f IH]; intros h; cbn [parseHandle_loop]; keeps_tac;
    first [apply IH | apply Expect_Parse_keeps | unfold TxResp.Parse; keeps_tac; apply TxResp_loop_keeps].
Qed.

Lemma parseClient_loop_keeps f : forall c, keeps_pending (parseClient_loop f c).
Proof.
  induction f as [|f IH]; intros c; cbn [parseClient_loop]; keeps_tac;
    first [apply IH | apply Expect_Parse_keeps | unfold TxReq.Parse; keeps_tac; apply TxReq_loop_keeps].
Qed.

(** A parser that starts with [ScanUseful] and keeps the pending bytes
    ends with no more than the input held before it. *)
Lemma scanUsefulP_then {A} (k : token -> P A) s x s' :
  (forall t, keeps_pending (k t)) -> bind scanUsefulP k s = Ok (x, s') ->
  pending s' <= String.length (rest s).
Proof.
  intros Hk H. unfold bind, scanUsefulP in H.
  destruct (ScanUseful s) as [t s1] eqn:E.
  pose proof (ScanUseful_pending _ _ _ E). specialize (Hk t s1 x s' H). lia.
Qed.

Lemma parseHandle_pending s h s' :
  parseHandle s = Ok (h, s') -> pending s' <= String.length (rest s).
Proof.
  unfold parseHandle. apply scanUsefulP_then. intros t. keeps_tac.
  apply parseHandle_loop_keeps.
Qed.

Lemma parseClient_pending s c s' :
  parseClient s = Ok (c, s') -> pending s' <= String.length (rest s).
Proof.
  unfold parseClient. apply scanUsefulP_then. intros t. keeps_tac.
  apply parseClient_loop_keeps.
Qed.

(** Every pass of the top-level loop reads a token; all but EOF consume
    input, so [S (length input)] passes are as good as any more. *)
Lemma Parse_loop_fuel f1 : forall f2 h c s,
  String.length (rest s) < f1 -> String.length (rest s) < f2 ->
  Parse_loop f1 h c s = Parse_loop f2 h c s.
Proof.
  induction f1 as [|f1 IH]; intros f2 h c s H1 H2; [lia|].
  destruct f2 as [|f2]; [lia|].
  cbn [Parse_loop]. unfold bind, scanUsefulP, ret, fail.
  destruct (ScanUseful s) as [t s1] eqn:E.
  destruct (typ t =t EOF) eqn:Eeof; [reflexivity|].
  assert (L1 : String.length (rest s1) < String.length (rest s)).
  { apply (ScanUseful_progress s t s1 E). intros Ht. rewrite Ht in Eeof. discriminate Eeof. }
  destruct (typ t =t ILLEGAL); [reflexivity|].
  pose proof (rest_le_pending s1).
  destruct (typ t =t HANDLE);
    [destruct (parseHandle s1) as [[hs s2]| | | |] eqn:Eh; try reflexivity;
     pose proof (parseHandle_pending _ _ _ Eh); pose proof (rest_le_pending s2)
    | set (s2 := s1)];
  (destruct (typ t =t CLIENT);
    [destruct (parseClient s2) as [[cs s3]| | | |] eqn:Ec; try reflexivity;
     pose proof (parseClient_pending _ _ _ Ec); pose proof (rest_le_pending s3)
    | ]);
  apply IH; try subst s2; lia.
Qed.

Lemma Parse_loop_first f h c s s' :
  ScanUseful s = ScanUseful s' -> Parse_loop (S f) h c s = Parse_loop (S f) h c s'.
Proof. intros E. cbn [Parse_loop]. unfold bind at 1, scanUsefulP. rewrite E. reflexivity. Qed.

(** [Parse] only looks at its input through the tokens it reads: two
    inputs that start with the same token and continue the same way parse
    the same. *)
Lemma Parse_same_first_token a b :
  ScanUseful (newScanner a) = ScanUseful (newScanner b) -> Parse a = Parse b.
Proof.
  intros E. unfold Parse, with_fuel, fuel_of. cbn [rest newScanner].
  set (m := Nat.max (String.length a) (String.length b)).
  rewrite (Parse_loop_fuel (S (String.length a)) (S m)) by (unfold m, newScanner; cbn [rest]; lia).
  rewrite (Parse_loop_fuel (S (String.length b)) (S m)) by (unfold m, newScanner; cbn [rest]; lia).
  rewrite (Parse_loop_first m [] [] _ _ E). reflexivity.
Qed.

End FuelFacts.

(** [Parse] skips blanks and comment lines before the first token. *)
Theorem Parse_ignores_leading_blanks_and_comments :
  (forall w r, w <> "" -> blanks w = true -> blank_end r = true -> Parse (w ++ r) = Parse r) /\
  (forall c r, comment_text c = true -> Parse (String "#" (c ++ String nl r)) = Parse r).
Proof.
  split.
  - intros [|b w] r Hne Hw Hr; [congruence|].
    apply FuelFacts.Parse_same_first_token. unfold newScanner.
    rewrite (ScannerFacts.ScanUseful_skip _ _ _ (ScannerFacts.scan_blanks b w r None Hw Hr))
      by reflexivity.
    reflexivity.
  - intros c r Hc. apply FuelFacts.Parse_same_first_token. unfold newScanner.
    rewrite (ScannerFacts.ScanUseful_skip _ _ _ (ScannerFacts.scan_comment c r None Hc))
      by reflexivity.
    apply ScannerFacts.ScanUseful_lastRune.
Qed.

Lemma Parse_ignores_leading_blanks_and_comments_witness :
  ((" " <> "" /\ blanks " " = true /\ blank_end two_stanzas = true) /\
   Parse (" " ++ two_stanzas) = Parse two_stanzas) /\
  (comment_text " the server" = true /\
   Parse (String "#" (" the server" ++ String nl two_stanzas)) = Parse two_stanzas).
Proof.
  split; split.
  - split; [discriminate|split; reflexivity].
  - apply (proj1 Parse_ignores_leading_blanks_and_comments); [discriminate|reflexivity|reflexivity].
  - reflexivity.
  - apply (proj2 Parse_ignores_leading_blanks_and_comments). reflexivity.
Defined.

(** At the top level [Parse] acts on [handle], [client], EOF and ILLEGAL
    tokens only: any other first token (a quoted string, a number, [tx],
    [expect], a brace, ...) is skipped, and parsing goes on after it as if
    the input started there. *)
Theorem Parse_skips_stray_token input t s1 :
  ScanUseful (newScanner input) = (t, s1) ->
  typ t <> EOF -> typ t <> ILLEGAL -> typ t <> HANDLE -> typ t <> CLIENT ->
  Parse input = Parse (rest s1).
Proof.
  intros E H1 H2 H3 H4.
  pose proof (FuelFacts.ScanUseful_progress _ _ _ E H1) as L. cbn [rest newScanner] in L.
  unfold Parse at 1, with_fuel, fuel_of. cbn [rest newScanner Parse_loop].
  unfold bind at 1, scanUsefulP. rewrite E.
  destruct t as [k v]. cbn [typ] in *.
  destruct k; try congruence; cbn -[Parse_loop];
  (rewrite (FuelFacts.Parse_loop_fuel (String.length input) (S (String.length (rest s1))))
    by lia;
   destruct s1 as [r l];
   rewrite (FuelFacts.Parse_loop_first _ _ _ _ {| rest := r; lastRune := None |})
     by apply ScannerFacts.ScanUseful_lastRune;
   reflexivity).
Qed.

Lemma Parse_skips_stray_token_witness :
  (ScanUseful (newScanner ("42" ++ String " " two_stanzas)) =
     (newToken INTEGER "42", {| rest := String " " two_stanzas; lastRune := None |}) /\
   INTEGER <> EOF /\ INTEGER <> ILLEGAL /\ INTEGER <> HANDLE /\ INTEGER <> CLIENT) /\
  Parse ("42" ++ String " " two_stanzas) = Parse (String " " two_stanzas).
Proof.
  split; [repeat split; first [reflexivity | discriminate]|].
  apply (Parse_skips_stray_token _ (newToken INTEGER "42")
           {| rest := String " " two_stanzas; lastRune := None |});
    first [reflexivity | discriminate].
Defined.

(** ** The flags of a request's [tx] command *)

Module TxReqFacts.

Lemma loop_url f r u y l :
  quotable u = true ->
  TxReq.loop (S f) r {| rest := " -url " ++ quoted_then u y; lastRune := l |} =
  TxReq.loop f {| TxReq.uri := u; TxReq.method := TxReq.method r;
                  TxReq.headers := TxReq.headers r; TxReq.body := TxReq.body r |}
    {| rest := y; lastRune := Some dq |}.
Proof.
  intros Hq. cbn [TxReq.loop]. unfold bind at 1, scanUsefulP.
  change (ScanUseful {| rest := " -url " ++ quoted_then u y; lastRune := l |})
    with (newToken URL_ARG "-url", {| rest := String " " (quoted_then u y); lastRune := None |}).
  cbn -[ScanUseful TxReq.loop]. unfold bind.
  rewrite (ScanUseful_space_quoted u y None Hq). reflexivity.
Qed.

Lemma loop_method f r m y l :
  quotable m = true ->
  TxReq.loop (S f) r {| rest := " -method " ++ quoted_then m y; lastRune := l |} =
  TxReq.loop f {| TxReq.uri := TxReq.uri r; TxReq.method := m;
                  TxReq.headers := TxReq.headers r; TxReq.body := TxReq.body r |}
    {| rest := y; lastRune := Some dq |}.
Proof.
  intros Hq. cbn [TxReq.loop]. unfold bind at 1, scanUsefulP.
  change (ScanUseful {| rest := " -method " ++ quoted_then m y; lastRune := l |})
    with (newToken METHOD_ARG "-method", {| rest := String " " (quoted_then m y); lastRune := None |}).
  cbn -[ScanUseful TxReq.loop]. unfold bind.
  rewrite (ScanUseful_space_quoted m y None Hq). reflexivity.
Qed.

Lemma loop_body f r b y l :
  quotable b = true ->
  TxReq.loop (S f) r {| rest := " -body " ++ quoted_then b y; lastRune := l |} =
  TxReq.loop f {| TxReq.uri := TxReq.uri r; TxReq.method := TxReq.method r;
                  TxReq.headers := TxReq.headers r; TxReq.body := b |}
    {| rest := y; lastRune := Some dq |}.
Proof.
  intros Hq. cbn [TxReq.loop]. unfold bind at 1, scanUsefulP.
  change (ScanUseful {| rest := " -body " ++ quoted_then b y; lastRune := l |})
    with (newToken BODY_ARG "-body", {| rest := String " " (quoted_then b y); lastRune := None |}).
  cbn -[ScanUseful TxReq.loop]. unfold bind.
  rewrite (ScanUseful_space_quoted b y None Hq). reflexivity.
Qed.

Lemma loop_close f r y l :
  TxReq.loop (S f) r {| rest := String "}" y; lastRune := l |} =
  Ok (r, {| rest := String "}" y; lastRune := None |}).
Proof. reflexivity. Qed.

End TxReqFacts.

(** [TxReq.Parse] stores the quoted values of [-url], [-method] and
    [-body] (ASCII texts without a quote or NUL) as they are, and stops before the closing brace; without a
    [-method] flag the method is GET and the body is empty. *)
Theorem TxReq_Parse_reads_flags u m b r :
  quotable u = true -> quotable m = true -> quotable b = true ->
  TxReq.Parse {| rest := " -url " ++ quoted_then u (" -method " ++ quoted_then m
                           (" -body " ++ quoted_then b (String "}" r))); lastRune := None |} =
    Ok ({| TxReq.uri := u; TxReq.method := m; TxReq.headers := []; TxReq.body := b |},
        {| rest := String "}" r; lastRune := None |}) /\
  TxReq.Parse {| rest := " -url " ++ quoted_then u (String "}" r); lastRune := None |} =
    Ok ({| TxReq.uri := u; TxReq.method := "GET"; TxReq.headers := []; TxReq.body := "" |},
        {| rest := String "}" r; lastRune := None |}).
Proof.
  intros Hu Hm Hb. unfold TxReq.Parse, with_fuel, fuel_of. cbn [rest]. split.
  - match goal with |- TxReq.loop (S (String.length (_ ++ ?z))) _ _ = _ =>
      change (String.length (" -url " ++ z)) with (S (S (S (S (S (S (String.length z))))))) end.
    rewrite TxReqFacts.loop_url by exact Hu. rewrite TxReqFacts.loop_method by exact Hm.
    rewrite TxReqFacts.loop_body by exact Hb. apply TxReqFacts.loop_close.
  - match goal with |- TxReq.loop (S (String.length (_ ++ ?z))) _ _ = _ =>
      change (String.length (" -url " ++ z)) with (S (S (S (S (S (S (String.length z))))))) end.
    rewrite TxReqFacts.loop_url by exact Hu. apply TxReqFacts.loop_close.
Qed.

Lemma TxReq_Parse_reads_flags_witness :
  (quotable "/hello" = true /\ quotable "HEAD" = true /\ quotable "hi" = true) /\
  TxReq.Parse {| rest := " -url " ++ quoted_then "/hello" (" -method " ++ quoted_then "HEAD"
                           (" -body " ++ quoted_then "hi" (String "}" ""))); lastRune := None |} =
    Ok ({| TxReq.uri := "/hello"; TxReq.method := "HEAD"; TxReq.headers := []; TxReq.body := "hi" |},
        {| rest := String "}" ""; lastRune := None |}) /\
  TxReq.Parse {| rest := " -url " ++ quoted_then "/hello" (String "}" ""); lastRune := None |} =
    Ok ({| TxReq.uri := "/hello"; TxReq.method := "GET"; TxReq.headers := []; TxReq.body := "" |},
        {| rest := String "}" ""; lastRune := None |}).
Proof.
  split; [repeat split|apply TxReq_Parse_reads_flags; reflexivity].
Defined.

(** ** Status expectations *)

Module StatusFacts.

Lemma Itoa_inj a b : int64_ok a = true -> int64_ok b = true -> Itoa a = Itoa b -> a = b.
Proof.
  intros Ha Hb E. pose proof (IntFacts.Atoi_Itoa a Ha) as A. pose proof (IntFacts.Atoi_Itoa b Hb) as B.
  rewrite E in A. rewrite A in B. injection B as B. exact B.
Qed.

Lemma Itoa_eqb a b :
  int64_ok a = true -> int64_ok b = true -> String.eqb (Itoa a) (Itoa b) = Z.eqb a b.
Proof.
  intros Ha Hb. destruct (Z.eqb a b) eqn:E.
  - apply Z.eqb_eq in E. subst b. apply String.eqb_refl.
  - apply String.eqb_neq. intros H. apply Itoa_inj in H; [|exact Ha|exact Hb].
    subst b. rewrite Z.eqb_refl in E. discriminate E.
Qed.

End StatusFacts.

(** A status expectation compares texts, the expected one with the
    decimal form of the response's status code; for an expected text that
    is itself the decimal form of an int, [eq] holds exactly when the
    codes are equal and [ne] exactly when they differ. *)
Theorem Expect_Response_status lib e resp z :
  field e = EXPECT_STATUS -> expected e = Itoa z ->
  int64_ok z = true -> int64_ok (StatusCode resp) = true ->
  (operator e = EQUAL -> Expect_Response lib e resp = Ok (Z.eqb z (StatusCode resp))) /\
  (operator e = NOTEQUAL -> Expect_Response lib e resp = Ok (negb (Z.eqb z (StatusCode resp)))).
Proof.
  intros Hf He Hz Hs. unfold Expect_Response, ActualResponse. rewrite Hf. cbn [obind].
  unfold expectThing. rewrite He, (StatusFacts.Itoa_eqb z (StatusCode resp) Hz Hs).
  split; intros Ho; rewrite Ho; reflexivity.
Qed.

Lemma Expect_Response_status_witness :
  let e := {| verbatim := "resp.status eq " ++ quoted "200"; field := EXPECT_STATUS;
              headerName := ""; operator := EQUAL; expected := "200" |} in
  let resp := {| StatusCode := 404; RespHeader := fun _ => ""; RespBody := None |} in
  (field e = EXPECT_STATUS /\ expected e = Itoa 200 /\ int64_ok 200 = true /\
   int64_ok (StatusCode resp) = true) /\
  (operator e = EQUAL -> Expect_Response Regexp.Match e resp = Ok false) /\
  (operator e = NOTEQUAL -> Expect_Response Regexp.Match e resp = Ok true).
Proof.
  intros e resp. split; [repeat split|].
  exact (Expect_Response_status Regexp.Match e resp 200 eq_refl eq_refl eq_refl eq_refl).
Defined.

Module HandleFacts.

Lemma ScanUseful_blank x l :
  blank_end x = true ->
  ScanUseful {| rest := String " " x; lastRune := l |} = ScanUseful {| rest := x; lastRune := None |}.
Proof.
  intros Hx. change (String " " x) with (String " " "" ++ x).
  rewrite (ScannerFacts.ScanUseful_skip _ _ _ (ScannerFacts.scan_blanks " " "" x l eq_refl Hx))
    by reflexivity.
  reflexivity.
Qed.

Lemma TxResp_loop_first f r s s' :
  ScanUseful s = ScanUseful s' -> TxResp.loop (S f) r s = TxResp.loop (S f) r s'.
Proof. intros E. cbn [TxResp.loop]. unfold bind at 1, scanUsefulP. rewrite E. reflexivity. Qed.

Lemma TxResp_Parse_status z l :
  int64_ok z = true ->
  TxResp.Parse {| rest := " -status " ++ Itoa z ++ " }"; lastRune := l |} =
    Ok ({| TxResp.statusCode := z; TxResp.headers := []; TxResp.body := "" |},
        {| rest := "}"; lastRune := None |}).
Proof.
  intros Hz. unfold TxResp.Parse, with_fuel, fuel_of. cbn [rest].
  change (String.length (" -status " ++ Itoa z ++ " }"))
    with (S (S (S (S (S (S (S (S (S (String.length (Itoa z ++ " }"))))))))))).
  rewrite (TxResp_loop_first _ _ _ {| rest := "-status " ++ Itoa z ++ " }"; lastRune := None |})
    by (apply ScanUseful_blank; reflexivity).
  rewrite IntFacts.TxResp_loop_status by (exact Hz || reflexivity).
  cbn [TxResp.headers TxResp.body].
  rewrite (TxResp_loop_first _ _ _ {| rest := "}"; lastRune := None |})
    by (apply ScanUseful_blank; reflexivity).
  reflexivity.
Qed.

Lemma ScanUseful_open x l :
  ScanUseful {| rest := String " " (String "{" x); lastRune := l |} =
    (newToken OPEN_CURLY "{", {| rest := x; lastRune := Some "{"%char |}).
Proof.
  rewrite ScanUseful_blank by reflexivity.
  apply ScannerFacts.ScanUseful_scan; reflexivity.
Qed.

Lemma parseHandle_status p z l :
  quotable p = true -> int64_ok z = true ->
  parseHandle {| rest := String " " (quoted_then (String "/" p) (" { tx -status " ++ Itoa z ++ " }"));
                 lastRune := l |} =
    Ok ({| URIPath := String "/" p; Expectations := [];
           Response := {| TxResp.statusCode := z; TxResp.headers := []; TxResp.body := "" |} |},
        {| rest := ""; lastRune := Some "}"%char |}).
Proof.
  intros Hp Hz. unfold parseHandle, bind, scanUsefulP.
  assert (Hq : quotable (String "/" p) = true) by exact Hp.
  rewrite (ScanUseful_space_quoted _ _ _ Hq).
  cbn -[ScanUseful Itoa TxResp.Parse parseHandle_loop String.append with_fuel].
  change (" { tx -status " ++ Itoa z ++ " }")
    with (String " " (String "{" (" tx -status " ++ Itoa z ++ " }"))).
  rewrite ScanUseful_open.
  cbn -[ScanUseful Itoa TxResp.Parse parseHandle_loop String.append with_fuel].
  unfold with_fuel, fuel_of. cbn [rest].
  change (String.length (" tx -status " ++ Itoa z ++ " }"))
    with (S (String.length ("tx -status " ++ Itoa z ++ " }"))).
  cbn [parseHandle_loop]. unfold bind, scanUsefulP.
  change (" tx -status " ++ Itoa z ++ " }")
    with (String " " ("tx" ++ " -status " ++ Itoa z ++ " }")).
  rewrite ScanUseful_blank by reflexivity.
  rewrite ExpectFacts.ScanUseful_word by (reflexivity || discriminate).
  cbn -[ScanUseful Itoa TxResp.Parse parseHandle_loop String.append].
  rewrite TxResp_Parse_status by exact Hz.
  reflexivity.
Qed.

End HandleFacts.

(** The smallest complete handler, [handle "/p" { tx -status N }], parses
    to exactly one handler for the path [/p] with no expectations, whose
    response has status code [N], no headers and an empty body; there are
    no clients. This holds for every ASCII path text without a double
    quote or NUL and every 64-bit int [N], as written by [strconv.Itoa]. *)
Theorem Parse_minimal_handler p z :
  quotable p = true -> int64_ok z = true ->
  Parse ("handle" ++ String " " (quoted_then (String "/" p) (" { tx -status " ++ Itoa z ++ " }"))) =
    Ok ([{| URIPath := String "/" p; Expectations := [];
            Response := {| TxResp.statusCode := z; TxResp.headers := []; TxResp.body := "" |} |}], []).
Proof.
  intros Hp Hz. unfold Parse, with_fuel, fuel_of, newScanner. cbn [rest].
  set (x := String " " (quoted_then (String "/" p) (" { tx -status " ++ Itoa z ++ " }"))).
  change (String.length ("handle" ++ x)) with (S (S (S (S (S (S (String.length x))))))).
  cbn [Parse_loop]. unfold bind, scanUsefulP.
  rewrite ExpectFacts.ScanUseful_word by (reflexivity || discriminate || (subst x; reflexivity)).
  cbn -[ScanUseful Itoa parseHandle Parse_loop String.append].
  subst x. rewrite HandleFacts.parseHandle_status by assumption.
  cbn -[Itoa String.append].
  reflexivity.
Qed.

Lemma Parse_minimal_handler_witness :
  quotable "ping" = true /\ int64_ok 204 = true /\
  Parse ("handle" ++ String " " (quoted_then (String "/" "ping") (" { tx -status " ++ Itoa 204 ++ " }"))) =
    Ok ([{| URIPath := String "/" "ping"; Expectations := [];
            Response := {| TxResp.statusCode := 204; TxResp.headers := []; TxResp.body := "" |} |}], []).
Proof.
  split; [reflexivity | split; [reflexivity | apply Parse_minimal_handler; reflexivity]].
Defined.

(** ** Expectations that fail only when evaluated *)

Module EvalFacts.

Lemma ScanUseful_punct c x l :
  In c ["."; "~"; "["; "]"]%char ->
  ScanUseful {| rest := String c x; lastRune := l |} = (char_token c, {| rest := x; lastRune := Some c |}).
Proof. intros H. repeat destruct H as [<-|H]; try reflexivity. destruct H. Qed.

Lemma ScanUseful_punct1 c x l :
  In c ["."; "~"; "["; "]"]%char ->
  ScanUseful {| rest := String c "" ++ x; lastRune := l |} = (char_token c, {| rest := x; lastRune := Some c |}).
Proof. apply ScanUseful_punct. Qed.

Lemma ScanUseful_space_int z r l :
  int64_ok z = true -> ident_end r = true ->
  ScanUseful {| rest := String " " (Itoa z ++ r); lastRune := l |} =
    (newToken INTEGER (Itoa z), {| rest := r; lastRune := None |}).
Proof.
  intros Hz Hr. rewrite HandleFacts.ScanUseful_blank by apply IntFacts.Itoa_blank_end.
  destruct (IntFacts.Itoa_ident z) as (c & w & Ei & Hi).
  rewrite <- (IntFacts.ident_token_integer (Itoa z) z (IntFacts.Itoa_chars z) (IntFacts.Atoi_Itoa z Hz)).
  rewrite Ei. apply ScannerFacts.ScanUseful_scan; [apply ScannerFacts.scan_ident; assumption|].
  rewrite <- Ei, (IntFacts.ident_token_integer (Itoa z) z (IntFacts.Itoa_chars z) (IntFacts.Atoi_Itoa z Hz)).
  reflexivity.
Qed.

Ltac word := rewrite ExpectFacts.ScanUseful_word by (reflexivity || discriminate).
Ltac punct := first [rewrite ScanUseful_punct by (cbn; tauto) | rewrite ScanUseful_punct1 by (cbn; tauto)].
Ltac blank := rewrite HandleFacts.ScanUseful_blank by reflexivity.
Ltac go := cbn -[ScanUseful String.append Itoa quoted_then].

(** [side.fld op] followed by a value: the expectation up to its value. *)
Lemma Expect_Parse_text side fld op value :
  In side ["req"; "resp"] -> In fld ["method"; "status"; "body"] -> In op ["eq"; "ne"; "~"] ->
  Expect_Parse (newScanner (expect_text side fld op value)) =
    match ScanUseful {| rest := String " " value; lastRune := if String.eqb op "~" then Some "~"%char else None |} with
    | (t, s) =>
        if negb (typ t =t STRING) && negb (typ t =t INTEGER) then
          Err ("Parse error in 'expect' command: expecting a string/integer, got " ++ got t)
        else
          Ok ({| verbatim := side ++ "." ++ fld ++ " " ++ op ++ " " ++ goq (val t);
                 field := if String.eqb fld "method" then EXPECT_METHOD
                          else if String.eqb fld "status" then EXPECT_STATUS else EXPECT_BODY;
                 headerName := "";
                 operator := if String.eqb op "eq" then EQUAL
                             else if String.eqb op "ne" then NOTEQUAL else TILDE;
                 expected := val t |}, s)
    end.
Proof.
  intros Hs Hf Ho. unfold expect_text, newScanner, Expect_Parse, bind, scanUsefulP.
  repeat destruct Hs as [<-|Hs]; [| |destruct Hs];
  repeat destruct Hf as [<-|Hf]; try destruct Hf;
  repeat destruct Ho as [<-|Ho]; try destruct Ho;
  word; go; punct; go; word; go;
  first [blank; word | blank; punct]; go;
  destruct (ScanUseful _) as [t s']; destruct (negb (typ t =t STRING) && negb (typ t =t INTEGER)); reflexivity.
Qed.

End EvalFacts.

(** Claim C7: [Expect.Parse] accepts an expectation on the status of a
    request with every operator and with a string or an integer value,
    and accepts [~ "p"] on either side and on every field for every
    pattern [p] (ASCII, without a quote): nothing checks the field
    against the side or the pattern. Evaluating an expectation on the
    status of a request ends in [log.Fatal] whatever the request, and
    evaluating a [~] expectation whose pattern the regexp library rejects
    ends in [log.Panic], on a request or a response; neither yields a
    verdict. The pattern [(] is one that is rejected. *)
Theorem eval_time_errors :
  (forall op v r, In op ["eq"; "ne"; "~"] -> quotable v = true ->
     exists e s', Expect_Parse (newScanner (expect_text "req" "status" op (quoted_then v r)))
                  = Ok (e, s') /\ field e = EXPECT_STATUS /\ expected e = v)
  /\ (forall op z r, In op ["eq"; "ne"; "~"] -> int64_ok z = true -> ident_end r = true ->
     exists e s', Expect_Parse (newScanner (expect_text "req" "status" op (Itoa z ++ r)))
                  = Ok (e, s') /\ field e = EXPECT_STATUS /\ expected e = Itoa z)
  /\ (forall side fld p r, In side ["req"; "resp"] -> In fld ["method"; "status"; "body"] ->
     quotable p = true ->
     exists e s', Expect_Parse (newScanner (expect_text side fld "~" (quoted_then p r)))
                  = Ok (e, s') /\ operator e = TILDE /\ expected e = p)
  /\ (forall side h p r, In side ["req"; "resp"] -> quotable h = true -> quotable p = true ->
     exists e s', Expect_Parse (newScanner (expect_header_text side h "~" (quoted_then p r)))
                  = Ok (e, s') /\ field e = EXPECT_HEADERS /\ headerName e = h
                    /\ operator e = TILDE /\ expected e = p)
  /\ (forall lib e req, field e = EXPECT_STATUS ->
        Expect_Request lib e req = Fatal "Requests have no status")
  /\ (forall lib e req a err, ActualRequest e req = Ok a -> operator e = TILDE ->
        lib (expected e) a = inl err ->
        Expect_Request lib e req = Panic ("regexp.Match error: " ++ err))
  /\ (forall lib e resp a err, ActualResponse e resp = Ok a -> operator e = TILDE ->
        lib (expected e) a = inl err ->
        Expect_Response lib e resp = Panic ("regexp.Match error: " ++ err))
  /\ (forall a, exists err, Regexp.Match "(" a = inl err).
Proof.
  split; [|split; [|split; [|split]]].
  - intros op v r Ho Hq. rewrite EvalFacts.Expect_Parse_text by (cbn; tauto).
    rewrite (ScanUseful_space_quoted _ _ _ Hq).
    eexists; eexists; split; [reflexivity|split; reflexivity].
  - intros op z r Ho Hz Hr. rewrite EvalFacts.Expect_Parse_text by (cbn; tauto).
    rewrite (EvalFacts.ScanUseful_space_int _ _ _ Hz Hr).
    eexists; eexists; split; [reflexivity|split; reflexivity].
  - intros side fld p r Hs Hf Hq. rewrite EvalFacts.Expect_Parse_text by (cbn; tauto).
    rewrite (ScanUseful_space_quoted _ _ _ Hq).
    eexists; eexists; split; [reflexivity|split; reflexivity].
  - intros side h p r Hs Hh Hq.
    unfold expect_header_text, newScanner, Expect_Parse, bind, scanUsefulP.
    repeat destruct Hs as [<-|Hs]; [| |destruct Hs];
    EvalFacts.word; EvalFacts.go; EvalFacts.punct; EvalFacts.go; EvalFacts.word; EvalFacts.go;
    unfold Expect_Parse_header, bind, scanUsefulP; EvalFacts.punct; EvalFacts.go;
    rewrite (ScannerFacts.ScanUseful_scan _ _ _ (ScannerFacts.scan_quoted _ _ _ Hh) eq_refl);
    EvalFacts.go; EvalFacts.punct; EvalFacts.go; EvalFacts.blank; EvalFacts.punct; EvalFacts.go;
    rewrite (ScanUseful_space_quoted _ _ _ Hq);
    eexists; eexists; (split; [reflexivity|repeat split]).
  - split; [intros lib e req H; unfold Expect_Request, ActualRequest; rewrite H; reflexivity|].
    split; [intros lib e req a err Ha Ho He; unfold Expect_Request; rewrite Ha; cbn;
            unfold expectThing; rewrite Ho, He; reflexivity|].
    split; [intros lib e resp a err Ha Ho He; unfold Expect_Response; rewrite Ha; cbn;
            unfold expectThing; rewrite Ho, He; reflexivity|].
    intros a. eexists. reflexivity.
Qed.

Lemma eval_time_errors_witness :
  (exists e s', Expect_Parse (newScanner (expect_text "req" "status" "ne" (quoted_then "200" "")))
                = Ok (e, s') /\ field e = EXPECT_STATUS /\ expected e = "200")
  /\ (exists e s', Expect_Parse (newScanner (expect_text "req" "status" "eq" (Itoa 404 ++ "")))
                = Ok (e, s') /\ field e = EXPECT_STATUS /\ expected e = Itoa 404)
  /\ (exists e s', Expect_Parse (newScanner (expect_text "resp" "body" "~" (quoted_then "(" "")))
                = Ok (e, s') /\ operator e = TILDE /\ expected e = "(")
  /\ (exists e s', Expect_Parse (newScanner (expect_header_text "req" "Host" "~" (quoted_then "(" "")))
                = Ok (e, s') /\ field e = EXPECT_HEADERS /\ headerName e = "Host"
                  /\ operator e = TILDE /\ expected e = "(")
  /\ Expect_Request Regexp.Match (status_expect "200") get_request = Fatal "Requests have no status"
  /\ Expect_Request Regexp.Match (method_match_expect "(") get_request
     = Panic ("regexp.Match error: " ++ ("error parsing regexp: " ++ goq "("))
  /\ Expect_Response Regexp.Match (method_match_expect "(") ok_response
     = Panic ("regexp.Match error: " ++ ("error parsing regexp: " ++ goq "("))
  /\ (exists err, Regexp.Match "(" "GET" = inl err).
Proof.
  destruct eval_time_errors as (P1 & P2 & P3 & P4 & P5 & P6 & P7 & P8).
  split; [apply P1; [cbn; tauto | reflexivity]|].
  split; [apply P2; [cbn; tauto | reflexivity | reflexivity]|].
  split; [apply P3; [cbn; tauto | cbn; tauto | reflexivity]|].
  split; [apply P4; [cbn; tauto | reflexivity | reflexivity]|].
  split; [apply P5; reflexivity|].
  split; [apply (P6 _ _ _ "GET"); reflexivity|].
  split; [apply (P7 _ _ _ ""); reflexivity|].
  apply P8.
Defined.
